(** * seq.ts: a lazy sequence wrapper over one-shot iterators

    Shallow embedding of [src/seq.ts] (class [Seq<T>] and its helpers) and
    the properties of its cursors and consumers.

    Modelling conventions.
    - JavaScript values are the inductive [value]; a [number] is either NaN
      or an integer (the counters of the source never leave that range).
    - Every closure of the source that implements [next] is a constructor
      of [Iterator] carrying the mutable variables the closure captures;
      [next] is the transition function, returning the result of the pull
      and the cursor after it.
    - A cursor owns the cursors it pulls from (one owner per cursor).
    - Callbacks passed to [map], [filter], [find], [findIndex], [every]
      and [some] are total functions of the element and its index; the
      third argument (the sequence) and [thisArg] are not modelled.  The
      fold callback of [reduce] may throw.  [forEach] is modelled by the
      calls it makes.
    - Loops that the source does not bound ([filter]'s [while], the
      [for ... of] of the consumers) take a [fuel] argument; [None] means
      the fuel ran out before the call returned.
    - Array destructuring follows ECMAScript: a value that is not iterable
      raises a TypeError when destructured. *)

From Stdlib Require Import ZArith List String Bool Arith Lia.
Import ListNotations.

(** ** Values *)

Inductive number : Type :=
| NaN
| Num (z : Z).

#[warnings="-register-all"]
Inductive value : Type :=
| VUndefined
| VNull
| VBool (b : bool)
| VNum (n : number)
| VStr (s : string)
| VObj (ref : nat)             (* an object of the caller, known by its reference *)
| VArr (elems : list value).   (* an array literal evaluated by the engine *)

(** [x === y] on numbers: NaN is not equal to itself. *)
Definition number_eqb (x y : number) : bool :=
  match x, y with
  | Num a, Num b => Z.eqb a b
  | _, _ => false
  end.

(** [x >= y] on numbers: false as soon as one side is NaN. *)
Definition number_geb (x y : number) : bool :=
  match x, y with
  | Num a, Num b => Z.leb b a
  | _, _ => false
  end.

(** [x === y].  Objects are compared by reference; an array literal is a
    fresh object each time it is evaluated, so it is identical to no other
    value. *)
Definition strict_eq (x y : value) : bool :=
  match x, y with
  | VUndefined, VUndefined => true
  | VNull, VNull => true
  | VBool a, VBool b => Bool.eqb a b
  | VNum a, VNum b => number_eqb a b
  | VStr a, VStr b => String.eqb a b
  | VObj a, VObj b => Nat.eqb a b
  | _, _ => false
  end.

(** [typeof x === 'number'] *)
Definition typeof_number (x : value) : bool :=
  match x with
  | VNum _ => true
  | _ => false
  end.

(** [isNaN(x)] for [x] a number; only called behind [typeof x === 'number']. *)
Definition isNaN (x : value) : bool :=
  match x with
  | VNum NaN => true
  | _ => false
  end.

(** [const sameValueZero = (x, y) => x === y || (typeof x === 'number' &&
    typeof y === 'number' && isNaN(x) && isNaN(y))] *)
Definition sameValueZero (x y : value) : bool :=
  strict_eq x y
  || (typeof_number x && typeof_number y && isNaN x && isNaN y).

(** The number held by a counter of the source ([let index = 0; index++]). *)
Definition index_value (index : nat) : value := VNum (Num (Z.of_nat index)).

(** [index >= fromIndex], with [index] the first component of an entry. *)
Definition index_geb (index : value) (fromIndex : number) : bool :=
  match index with
  | VNum i => number_geb i fromIndex
  | _ => false
  end.

(** ** Errors *)

Inductive exn : Type :=
| NotIterable (v : value)      (* TypeError of the language: [v] is not iterable *)
| TypeError (message : string) (* [throw new TypeError(message)] *)
| Raised (v : value)           (* a value thrown by a callback *)
| RangeError.                  (* RangeError of the language: invalid array length *)

Inductive completion (A : Type) : Type :=
| Normal (a : A)
| Throw (e : exn).
Arguments Normal {A} a.
Arguments Throw {A} e.

Definition EmptyReduction : exn :=
  TypeError "Reduce of empty Seq with no initial value"%string.

(** The characters of a string, one string per character. *)
Fixpoint string_chars (s : string) : list value :=
  match s with
  | EmptyString => []
  | String c rest => VStr (String c EmptyString) :: string_chars rest
  end.

(** The pattern [[a, b] = v]: the first two elements that iterating [v]
    produces, [undefined] where there is none. *)
Definition destructure_pair (v : value) : completion (value * value) :=
  match v with
  | VArr elems => Normal (nth 0 elems VUndefined, nth 1 elems VUndefined)
  | VStr s =>
      let chars := string_chars s in
      Normal (nth 0 chars VUndefined, nth 1 chars VUndefined)
  | _ => Throw (NotIterable v)
  end.

(** ** Cursors *)

Record IteratorResult : Type := mkResult { done : bool; value_of : value }.

(** [{done: true}] *)
Definition result_done : IteratorResult := mkResult true VUndefined.

(** [type SeqCallback<T, U> = (currentValue: T, index: number, seq: Seq<T>) => U] *)
Definition SeqCallback (U : Type) : Type := value -> value -> U.

#[warnings="-register-all"]
Inductive Iterator : Type :=
| ArrayIterator (rest : list value)
    (* the iterator of an array: the elements not yet produced *)
| ExternalIterator (results : nat -> IteratorResult) (pulls : nat)
    (* a cursor supplied by the caller: what each pull returns, and the
       number of pulls made so far *)
| MapIterator (source : Iterator) (boundCallback : SeqCallback value) (index : nat)
| FilterIterator (source : Iterator) (boundCallback : SeqCallback bool) (index : nat)
| ConcatIterator (items : list item) (itemIndex : nat) (iterator : Iterator)
| InfiniteIterator (index : nat)
| ZipIterator (iterator1 iterator2 : Iterator)
with Seq : Type :=
| new_Seq (iterator : Iterator)
with item : Type :=
| ItemSeq (s : Seq)
| ItemValue (v : value).

(** [private readonly iterator: Iterator<T>] *)
Definition iterator (this : Seq) : Iterator :=
  match this with
  | new_Seq it => it
  end.

(** What [new Seq(iterable)] can be given. *)
Inductive Iterable : Type :=
| ArrayIterable (elements : list value)
| SeqIterable (s : Seq)
| ObjectIterable (cursor : Iterator).  (* [{[Symbol.iterator]: () => cursor}] *)

(** [iterable[Symbol.iterator]()].  A [Seq] returns itself, and its [next]
    delegates to the cursor it owns. *)
Definition symbol_iterator (iterable : Iterable) : Iterator :=
  match iterable with
  | ArrayIterable elements => ArrayIterator elements
  | SeqIterable s => iterator s
  | ObjectIterable cursor => cursor
  end.

(** [constructor(iterable) { this.iterator = iterable[Symbol.iterator](); }] *)
Definition Seq_new (iterable : Iterable) : Seq :=
  new_Seq (symbol_iterator iterable).

(** [static of<T>(...values: T[])] *)
Definition Seq_of (values : list value) : Seq := Seq_new (ArrayIterable values).

(** [static from<T>(iterable: Iterable<T>)] *)
Definition Seq_from (iterable : Iterable) : Seq := Seq_new iterable.

(** [static readonly empty = new Seq([])] *)
Definition Seq_empty : Seq := Seq_new (ArrayIterable []).

(** [nextItem instanceof Seq ? nextItem : Seq.of(nextItem)] *)
Definition item_iterator (nextItem : item) : Iterator :=
  match nextItem with
  | ItemSeq s => iterator s
  | ItemValue v => iterator (Seq_of [v])
  end.

(** [items[itemIndex]] *)
Definition item_at (items : list item) (itemIndex : nat) : item :=
  nth itemIndex items (ItemValue VUndefined).

(** One pull on a cursor: the [next] closures of [map], [filter],
    [concat], [initInfinite] and [zip], and the built-in array iterator. *)
Fixpoint next (fuel : nat) (it : Iterator) {struct fuel}
  : option (IteratorResult * Iterator) :=
  match fuel with
  | O => None
  | S fuel =>
      match it with
      | ArrayIterator [] => Some (result_done, ArrayIterator [])
      | ArrayIterator (x :: rest) => Some (mkResult false x, ArrayIterator rest)
      | ExternalIterator results pulls =>
          Some (results pulls, ExternalIterator results (S pulls))
      | MapIterator source boundCallback index =>
          match next fuel source with
          | None => None
          | Some (r, source') =>
              if negb (strict_eq (value_of r) VUndefined)
              then Some (mkResult (done r)
                           (boundCallback (value_of r) (index_value index)),
                         MapIterator source' boundCallback (S index))
              else Some (mkResult (done r) (VBool false),
                         MapIterator source' boundCallback index)
          end
      | FilterIterator source boundCallback index =>
          match next fuel source with
          | None => None
          | Some (result, source') =>
              if done result
              then Some (result, FilterIterator source' boundCallback index)
              else if boundCallback (value_of result) (index_value index)
              then Some (result, FilterIterator source' boundCallback (S index))
              else next fuel (FilterIterator source' boundCallback (S index))
          end
      | ConcatIterator items itemIndex iterator =>
          match next fuel iterator with
          | None => None
          | Some (result, iterator') =>
              if negb (done result)
              then Some (result, ConcatIterator items itemIndex iterator')
              else
                let itemIndex := S itemIndex in
                if itemIndex <? List.length items
                then next fuel (ConcatIterator items itemIndex
                                  (item_iterator (item_at items itemIndex)))
                else Some (result_done, ConcatIterator items itemIndex iterator')
          end
      | InfiniteIterator index =>
          Some (mkResult false (index_value index), InfiniteIterator (S index))
      | ZipIterator iterator1 iterator2 =>
          match next fuel iterator1 with
          | None => None
          | Some (item1, iterator1') =>
              match next fuel iterator2 with
              | None => None
              | Some (item2, iterator2') =>
                  Some (if done item1 || done item2
                        then result_done
                        else mkResult false (VArr [value_of item1; value_of item2]),
                        ZipIterator iterator1' iterator2')
              end
          end
      end
  end.

(** [public next() { return this.iterator.next(); }] *)
Definition Seq_next (fuel : nat) (this : Seq) : option (IteratorResult * Seq) :=
  match next fuel (iterator this) with
  | None => None
  | Some (r, it') => Some (r, new_Seq it')
  end.

(** ** Lazy operations *)

(** [map<U>(callback, thisArg?)]: the cursor keeps [index] and pulls
    [this.iterator]. *)
Definition Seq_map (callback : SeqCallback value) (this : Seq) : Seq :=
  Seq_new (ObjectIterable (MapIterator (iterator this) callback 0)).

(** [(item, index) => [index, item] as [number, T]] *)
Definition entry : SeqCallback value := fun item index => VArr [index; item].

(** [entries() { return this.map((item, index) => [index, item]); }] *)
Definition Seq_entries (this : Seq) : Seq := Seq_map entry this.

(** [keys() { return this.map((_, index) => index); }] *)
Definition Seq_keys (this : Seq) : Seq :=
  Seq_map (fun _ index => index) this.

(** [filter(callback, thisArg?)] *)
Definition Seq_filter (callback : SeqCallback bool) (this : Seq) : Seq :=
  Seq_new (ObjectIterable (FilterIterator (iterator this) callback 0)).

(** [static concat<T>(...items: (Seq<T> | T)[])] *)
Definition Seq_concat (items : list item) : Seq :=
  if List.length items <? 1
  then Seq_empty
  else Seq_new (ObjectIterable
                  (ConcatIterator items 0 (item_iterator (item_at items 0)))).

(** [concat(...items) { return Seq.concat(this, ...items); }] *)
Definition Seq_concat_method (this : Seq) (items : list item) : Seq :=
  Seq_concat (ItemSeq this :: items).

(** [Array(count).keys()]: the cursor over the indices of an array of
    [count] slots.  [Array(count)] throws a RangeError when [count] is
    not an array length, which for a natural number is when it is 2^32
    or more. *)
Definition array_keys (count : nat) : completion Iterator :=
  if (Z.of_nat count <? 4294967296)%Z
  then Normal (ArrayIterator (List.map index_value (seq 0 count)))
  else Throw RangeError.

(** [static init<T>(count, initializer?) {
       const seq = Seq.from(Array(count).keys());
       return initializer ? seq.map(initializer) : seq; }] *)
Definition Seq_init (count : nat) (initializer : option (SeqCallback value))
  : completion Seq :=
  match array_keys count with
  | Throw e => Throw e
  | Normal keys =>
      let seq := Seq_from (ObjectIterable keys) in
      Normal (match initializer with
              | Some initializer => Seq_map initializer seq
              | None => seq
              end)
  end.

(** [static initInfinite<T>(initializer?)] *)
Definition Seq_initInfinite (initializer : option (SeqCallback value)) : Seq :=
  let seq := Seq_new (ObjectIterable (InfiniteIterator 0)) in
  match initializer with
  | Some initializer => Seq_map initializer seq
  | None => seq
  end.

(** [static zip<T, U>(source1, source2)] *)
Definition Seq_zip (source1 source2 : Iterable) : Seq :=
  Seq_new (ObjectIterable
             (ZipIterator (symbol_iterator source1) (symbol_iterator source2))).

(** ** Consumers *)

(** [[...this]]: pull until a result is done, collecting the values. *)
Fixpoint spread (fuel : nat) (this : Seq) {struct fuel}
  : option (list value * Seq) :=
  match fuel with
  | O => None
  | S fuel =>
      match Seq_next fuel this with
      | None => None
      | Some (r, this') =>
          if done r then Some ([], this')
          else
            match spread fuel this' with
            | None => None
            | Some (xs, this'') => Some (value_of r :: xs, this'')
            end
      end
  end.

(** The loop of [forEach]:
    [for (let item = this.iterator.next(), index = 0; !item.done;
          item = this.iterator.next()) {
       boundCallback(item.value, index++, this); }]
    The callback returns nothing; the model records the calls made, as
    the arguments [(item.value, index)] of each. *)
Fixpoint forEach_loop (fuel : nat) (index : nat) (it : Iterator) {struct fuel}
  : option (list (value * value) * Iterator) :=
  match fuel with
  | O => None
  | S fuel =>
      match next fuel it with
      | None => None
      | Some (item, it') =>
          if done item then Some ([], it')
          else
            match forEach_loop fuel (S index) it' with
            | None => None
            | Some (calls, it'') =>
                Some ((value_of item, index_value index) :: calls, it'')
            end
      end
  end.

(** [forEach(callback, thisArg?)] *)
Definition Seq_forEach (fuel : nat) (this : Seq)
  : option (list (value * value) * Iterator) :=
  forEach_loop fuel 0 (iterator this).

(** The loop of [findIndex]:
    [for (const [index, item] of this.entries()) {
       if (boundCallback(item, index, this)) return index; }
     return -1;] *)
Fixpoint findIndex_loop (fuel : nat) (boundCallback : SeqCallback bool)
    (entries : Seq) {struct fuel} : option (completion value * Seq) :=
  match fuel with
  | O => None
  | S fuel =>
      match Seq_next fuel entries with
      | None => None
      | Some (r, entries') =>
          if done r then Some (Normal (VNum (Num (-1))), entries')
          else
            match destructure_pair (value_of r) with
            | Throw e => Some (Throw e, entries')
            | Normal (index, item) =>
                if boundCallback item index
                then Some (Normal index, entries')
                else findIndex_loop fuel boundCallback entries'
            end
      end
  end.

(** [findIndex(callback, thisArg?)].  The second component is the cursor
    of [this.entries()] when the call returns. *)
Definition Seq_findIndex (fuel : nat) (callback : SeqCallback bool) (this : Seq)
  : option (completion value * Seq) :=
  findIndex_loop fuel callback (Seq_entries this).

(** The loop of [includes]:
    [for (const [index, item] of this.entries()) {
       if ((fromIndex === undefined || index >= fromIndex) &&
           sameValueZero(item, searchElement)) return true; }
     return false;] *)
Fixpoint includes_loop (fuel : nat) (searchElement : value)
    (fromIndex : option number) (entries : Seq) {struct fuel}
  : option (completion bool * Seq) :=
  match fuel with
  | O => None
  | S fuel =>
      match Seq_next fuel entries with
      | None => None
      | Some (r, entries') =>
          if done r then Some (Normal false, entries')
          else
            match destructure_pair (value_of r) with
            | Throw e => Some (Throw e, entries')
            | Normal (index, item) =>
                if (match fromIndex with
                    | None => true
                    | Some fromIndex => index_geb index fromIndex
                    end)
                   && sameValueZero item searchElement
                then Some (Normal true, entries')
                else includes_loop fuel searchElement fromIndex entries'
            end
      end
  end.

(** [includes(searchElement: T, fromIndex?: number)]; [None] is the
    argument left out (or [undefined]). *)
Definition Seq_includes (fuel : nat) (searchElement : value)
    (fromIndex : option number) (this : Seq) : option (completion bool * Seq) :=
  includes_loop fuel searchElement fromIndex (Seq_entries this).

(** The fold callback [(previousValue, currentValue, currentIndex, seq) => any]. *)
Definition ReduceCallback : Type := value -> value -> value -> completion value.

(** The loop of [reduce]:
    [for (const [index, item] of iterator) {
       accumulator = callbackfn(accumulator, item, index, this); }
     return accumulator;] *)
Fixpoint reduce_loop (fuel : nat) (callbackfn : ReduceCallback)
    (accumulator : value) (iterator : Seq) {struct fuel}
  : option (completion value * Seq) :=
  match fuel with
  | O => None
  | S fuel =>
      match Seq_next fuel iterator with
      | None => None
      | Some (r, iterator') =>
          if done r then Some (Normal accumulator, iterator')
          else
            match destructure_pair (value_of r) with
            | Throw e => Some (Throw e, iterator')
            | Normal (index, item) =>
                match callbackfn accumulator item index with
                | Throw e => Some (Throw e, iterator')
                | Normal accumulator' =>
                    reduce_loop fuel callbackfn accumulator' iterator'
                end
            end
      end
  end.

(** An argument that may be left out reads as [undefined]. *)
Definition optional_argument (arg : option value) : value :=
  match arg with
  | Some v => v
  | None => VUndefined
  end.

(** [reduce(callbackfn, initialValue?)]:
    [const iterator = this.entries();
     if (initialValue === undefined) {
       let {done, value: [_, acc]} = iterator.next();
       if (done) throw new TypeError('Reduce of empty Seq with no initial value');
       accumulator = acc;
     } else { accumulator = initialValue; }
     for (...) ...; return accumulator;] *)
Definition Seq_reduce (fuel : nat) (callbackfn : ReduceCallback)
    (initialValue : option value) (this : Seq)
  : option (completion value * Seq) :=
  let initialValue := optional_argument initialValue in
  let iterator := Seq_entries this in
  if strict_eq initialValue VUndefined
  then
    match Seq_next fuel iterator with
    | None => None
    | Some (r, iterator') =>
        match destructure_pair (value_of r) with
        | Throw e => Some (Throw e, iterator')
        | Normal (_, acc) =>
            if done r
            then Some (Throw EmptyReduction, iterator')
            else reduce_loop fuel callbackfn acc iterator'
        end
    end
  else reduce_loop fuel callbackfn initialValue iterator.

(** What a call returned, leaving out the cursor it stopped at. *)
Definition outcome {A B : Type} (r : option (A * B)) : option A :=
  match r with
  | Some (a, _) => Some a
  | None => None
  end.

(** [const inverse = (func, thisArg) =>
      (...params) => !func.call(thisArg, ...params)] *)
Definition inverse (func : SeqCallback bool) : SeqCallback bool :=
  fun currentValue index => negb (func currentValue index).

(** The loop of [find]:
    [for (const [index, item] of this.entries()) {
       if (boundCallback(item, index, this)) return item; }]
    Leaving the loop without a [return] gives [undefined]. *)
Fixpoint find_loop (fuel : nat) (boundCallback : SeqCallback bool)
    (entries : Seq) {struct fuel} : option (completion value * Seq) :=
  match fuel with
  | O => None
  | S fuel =>
      match Seq_next fuel entries with
      | None => None
      | Some (r, entries') =>
          if done r then Some (Normal VUndefined, entries')
          else
            match destructure_pair (value_of r) with
            | Throw e => Some (Throw e, entries')
            | Normal (index, item) =>
                if boundCallback item index
                then Some (Normal item, entries')
                else find_loop fuel boundCallback entries'
            end
      end
  end.

(** [find(callback, thisArg?)].  The second component is the cursor of
    [this.entries()] when the call returns. *)
Definition Seq_find (fuel : nat) (callback : SeqCallback bool) (this : Seq)
  : option (completion value * Seq) :=
  find_loop fuel callback (Seq_entries this).

(** [every(callback, thisArg?) {
       return this.find(inverse(callback, thisArg)) === undefined; }] *)
Definition Seq_every (fuel : nat) (callback : SeqCallback bool) (this : Seq)
  : option (completion bool * Seq) :=
  match Seq_find fuel (inverse callback) this with
  | None => None
  | Some (Throw e, entries') => Some (Throw e, entries')
  | Some (Normal found, entries') =>
      Some (Normal (strict_eq found VUndefined), entries')
  end.

(** [some(callback, thisArg?) {
       return this.find(callback, thisArg) !== undefined; }] *)
Definition Seq_some (fuel : nat) (callback : SeqCallback bool) (this : Seq)
  : option (completion bool * Seq) :=
  match Seq_find fuel callback this with
  | None => None
  | Some (Throw e, entries') => Some (Throw e, entries')
  | Some (Normal found, entries') =>
      Some (Normal (negb (strict_eq found VUndefined)), entries')
  end.

(** [reverse() { return new Seq([...this].reverse()); }]: the new
    sequence, and [this] as the spread leaves it. *)
Definition Seq_reverse (fuel : nat) (this : Seq) : option (Seq * Seq) :=
  match spread fuel this with
  | None => None
  | Some (xs, this') => Some (Seq_of (rev xs), this')
  end.

(** ** Vocabulary of the properties *)

(** [this] is a finite sequence whose elements are [xs]: spreading it
    returns [xs]. *)
Definition Drains (this : Seq) (xs : list value) : Prop :=
  exists fuel this', spread fuel this = Some (xs, this').

(** The elements of [xs] paired with their positions, counted from [start]. *)
Definition indexed (start : nat) (xs : list value) : list (nat * value) :=
  combine (seq start (List.length xs)) xs.

(** A callback applied to an element and its position. *)
Definition at_position {U : Type} (callback : SeqCallback U) (ix : nat * value) : U :=
  callback (snd ix) (index_value (fst ix)).

(** What the cursor of [map] produces from the elements [xs], the
    counter being [index]: an element that is [undefined] gives [false]
    and leaves the counter as it is. *)
Fixpoint map_from (callback : SeqCallback value) (index : nat)
    (xs : list value) : list value :=
  match xs with
  | [] => []
  | x :: rest =>
      if strict_eq x VUndefined
      then VBool false :: map_from callback index rest
      else callback x (index_value index) :: map_from callback (S index) rest
  end.

(** [[a, b]] *)
Definition pair_value (ab : value * value) : value := VArr [fst ab; snd ab].

(** The fold of [reduce] over the elements [xs], the first of them at
    position [start]; it stops at the first call that throws. *)
Fixpoint fold_from (callbackfn : ReduceCallback) (start : nat)
    (accumulator : value) (xs : list value) : completion value :=
  match xs with
  | [] => Normal accumulator
  | x :: rest =>
      match callbackfn accumulator x (index_value start) with
      | Throw e => Throw e
      | Normal accumulator' => fold_from callbackfn (S start) accumulator' rest
      end
  end.

(** What one argument of [concat] contributes: the elements of a [Seq],
    or the bare value itself. *)
Definition contributes (i : item) (run : list value) : Prop :=
  match i with
  | ItemSeq s => Drains s run
  | ItemValue v => run = [v]
  end.

(** [pulled n it it']: [n] successive pulls take the cursor [it] to [it']. *)
Inductive pulled : nat -> Iterator -> Iterator -> Prop :=
| pulled_O (it : Iterator) : pulled 0 it it
| pulled_S (n : nat) (it : Iterator) (fuel : nat) (r : IteratorResult)
    (it' it'' : Iterator) :
    next fuel it = Some (r, it') -> pulled n it' it'' -> pulled (S n) it it''.

(** [it'] is the cursor [it] after some number of pulls. *)
Definition after (it it' : Iterator) : Prop := exists n, pulled n it it'.

(** Every pull on [it], now and after any number of pulls, returns. *)
Definition always_returns (it : Iterator) : Prop :=
  forall it', after it it' -> exists fuel r it'', next fuel it' = Some (r, it'').

(** A cursor supplied by the caller keeps reporting exhaustion once it
    has reported it. *)
Definition keeps_exhausted (results : nat -> IteratorResult) (pulls : nat) : Prop :=
  forall i j, pulls <= i -> i <= j ->
    done (results i) = true -> done (results j) = true.

Section EngineBuilt.

(** What is asked of the two sources of a [zip]. *)
Variable zip_source : Iterator -> Prop.

(** The cursors of the sequences built by [of], [from], [empty], [map],
    [filter], [concat], [zip], [init] and [initInfinite], over caller
    cursors that keep reporting exhaustion. *)
Inductive engine_built : Iterator -> Prop :=
| built_array (rest : list value) :
    engine_built (ArrayIterator rest)
| built_external (results : nat -> IteratorResult) (pulls : nat) :
    keeps_exhausted results pulls ->
    engine_built (ExternalIterator results pulls)
| built_map (source : Iterator) (cb : SeqCallback value) (index : nat) :
    engine_built source ->
    engine_built (MapIterator source cb index)
| built_filter (source : Iterator) (cb : SeqCallback bool) (index : nat) :
    engine_built source ->
    engine_built (FilterIterator source cb index)
| built_concat (items : list item) (itemIndex : nat) (it : Iterator) :
    engine_built it ->
    (forall s, In (ItemSeq s) items -> engine_built (iterator s)) ->
    engine_built (ConcatIterator items itemIndex it)
| built_infinite (index : nat) :
    engine_built (InfiniteIterator index)
| built_zip (iterator1 iterator2 : Iterator) :
    engine_built iterator1 -> engine_built iterator2 ->
    zip_source iterator1 -> zip_source iterator2 ->
    engine_built (ZipIterator iterator1 iterator2).

End EngineBuilt.

(** A cursor that has reported exhaustion: the state in which each
    adapter is left by the pull that returned [done]. *)
Inductive exhausted : Iterator -> Prop :=
| exhausted_array : exhausted (ArrayIterator [])
| exhausted_external (results : nat -> IteratorResult) (pulls : nat) :
    (forall j, pulls <= j -> done (results j) = true) ->
    exhausted (ExternalIterator results pulls)
| exhausted_map (source : Iterator) (cb : SeqCallback value) (index : nat) :
    exhausted source -> exhausted (MapIterator source cb index)
| exhausted_filter (source : Iterator) (cb : SeqCallback bool) (index : nat) :
    exhausted source -> exhausted (FilterIterator source cb index)
| exhausted_concat (items : list item) (itemIndex : nat) (it : Iterator) :
    List.length items <= S itemIndex -> exhausted it ->
    exhausted (ConcatIterator items itemIndex it)
| exhausted_zip_left (iterator1 iterator2 : Iterator) :
    exhausted iterator1 -> exhausted (ZipIterator iterator1 iterator2)
| exhausted_zip_right (iterator1 iterator2 : Iterator) :
    exhausted iterator2 -> exhausted (ZipIterator iterator1 iterator2).

(** No condition on the sources of a [zip]. *)
Definition any_source (it : Iterator) : Prop := True.

(** Once a pull on the cursor of [this] has reported exhaustion, every
    later pull on it returns and reports exhaustion. *)
Definition exhaustion_reported_ever_after (this : Seq) : Prop :=
  forall it fuel r it' it1,
    after (iterator this) it ->
    next fuel it = Some (r, it') -> done r = true ->
    after it' it1 ->
    exists fuel1 r1 it2, next fuel1 it1 = Some (r1, it2) /\ done r1 = true.

(** A predicate true of the numbers below 2 only. *)
Definition below_two : SeqCallback bool :=
  fun item _ =>
    match item with
    | VNum (Num z) => Z.ltb z 2
    | _ => false
    end.

(** [Seq.zip(Seq.initInfinite().filter(below_two), ['a'])] *)
Definition zip_of_filtered_infinite : Seq :=
  Seq_zip (SeqIterable (Seq_filter below_two (Seq_initInfinite None)))
          (ArrayIterable [VStr "a"]).

(** [x] is not [undefined]. *)
Definition defined (x : value) : Prop := strict_eq x VUndefined = false.

(** The test of [includes] on the element at position [i]. *)
Definition includes_test (searchElement : value) (fromIndex : option number)
    (ix : nat * value) : bool :=
  match fromIndex with
  | None => true
  | Some fromIndex => number_geb (Num (Z.of_nat (fst ix))) fromIndex
  end && sameValueZero (snd ix) searchElement.

(** [yields it xs it']: successive pulls on [it] produce the elements
    [xs], none of them reporting exhaustion, and leave the cursor [it']. *)
Inductive yields : Iterator -> list value -> Iterator -> Prop :=
| yields_nil (it : Iterator) : yields it [] it
| yields_cons (it : Iterator) (fuel : nat) (r : IteratorResult)
    (it' : Iterator) (xs : list value) (it'' : Iterator) :
    next fuel it = Some (r, it') -> done r = false ->
    yields it' xs it'' -> yields it (value_of r :: xs) it''.

(** A pull on [it] returns and reports exhaustion, leaving [it']. *)
Definition ends (it it' : Iterator) : Prop :=
  exists fuel r, next fuel it = Some (r, it') /\ done r = true.

(** The entry [[index, item]] of the element at position [fst ix]. *)
Definition entry_at (ix : nat * value) : value :=
  VArr [index_value (fst ix); snd ix].

(** The value of [findIndex]: the position found, or [-1]. *)
Definition found_index (found : option (nat * value)) : value :=
  match found with
  | Some ix => index_value (fst ix)
  | None => VNum (Num (-1))
  end.

(** The value of [find]: the element found, or [undefined]. *)
Definition found_item (found : option (nat * value)) : value :=
  match found with
  | Some ix => snd ix
  | None => VUndefined
  end.

(** The numbers [start, start + 1, ...], [count] of them. *)
Definition numbers (start count : nat) : list value :=
  List.map index_value (seq start count).

(** * Properties *)

(** ** Fuel *)

Lemma next_mono (fuel : nat) :
  forall fuel' it res,
    next fuel it = Some res -> fuel <= fuel' -> next fuel' it = Some res.
Proof.
  induction fuel as [|fuel IH]; intros fuel' it res H Hle; [discriminate|].
  destruct fuel' as [|fuel']; [lia|].
  assert (Hle' : fuel <= fuel') by lia.
  simpl in H |- *.
  destruct it as [rest|results pulls|source cb index|source cb index
                 |items itemIndex it|index|it1 it2].
  - exact H.
  - exact H.
  - destruct (next fuel source) as [[r source']|] eqn:E; [|discriminate].
    rewrite (IH _ _ _ E Hle'). exact H.
  - destruct (next fuel source) as [[r source']|] eqn:E; [|discriminate].
    rewrite (IH _ _ _ E Hle').
    destruct (done r); [exact H|].
    destruct (cb (value_of r) (index_value index)); [exact H|].
    now apply IH.
  - destruct (next fuel it) as [[r it']|] eqn:E; [|discriminate].
    rewrite (IH _ _ _ E Hle').
    destruct (negb (done r)); [exact H|].
    destruct (S itemIndex <? List.length items); [|exact H].
    now apply IH.
  - exact H.
  - destruct (next fuel it1) as [[r1 it1']|] eqn:E1; [|discriminate].
    destruct (next fuel it2) as [[r2 it2']|] eqn:E2; [|discriminate].
    rewrite (IH _ _ _ E1 Hle'), (IH _ _ _ E2 Hle'). exact H.
Qed.

Lemma next_deterministic (fuel1 fuel2 : nat) (it : Iterator)
    (res1 res2 : IteratorResult * Iterator) :
  next fuel1 it = Some res1 -> next fuel2 it = Some res2 -> res1 = res2.
Proof.
  intros H1 H2.
  apply next_mono with (fuel' := Nat.max fuel1 fuel2) in H1; [|lia].
  apply next_mono with (fuel' := Nat.max fuel1 fuel2) in H2; [|lia].
  congruence.
Qed.

Lemma Seq_next_mono (fuel fuel' : nat) (this : Seq) res :
  Seq_next fuel this = Some res -> fuel <= fuel' -> Seq_next fuel' this = Some res.
Proof.
  unfold Seq_next. intros H Hle.
  destruct (next fuel (iterator this)) as [[r it']|] eqn:E; [|discriminate].
  now rewrite (next_mono _ _ _ _ E Hle).
Qed.

Lemma Seq_next_new (fuel : nat) (it : Iterator) :
  Seq_next fuel (new_Seq it) =
  match next fuel it with
  | None => None
  | Some (r, it') => Some (r, new_Seq it')
  end.
Proof. reflexivity. Qed.

Lemma spread_mono (fuel : nat) :
  forall fuel' this res,
    spread fuel this = Some res -> fuel <= fuel' -> spread fuel' this = Some res.
Proof.
  induction fuel as [|fuel IH]; intros fuel' this res H Hle; [discriminate|].
  destruct fuel' as [|fuel']; [lia|].
  assert (Hle' : fuel <= fuel') by lia.
  simpl in H |- *.
  destruct (Seq_next fuel this) as [[r this']|] eqn:E; [|discriminate].
  rewrite (Seq_next_mono _ _ _ _ E Hle').
  destruct (done r); [exact H|].
  destruct (spread fuel this') as [[xs this'']|] eqn:E'; [|discriminate].
  now rewrite (IH _ _ _ E' Hle').
Qed.

Lemma reduce_loop_mono (callbackfn : ReduceCallback) (fuel : nat) :
  forall fuel' accumulator it res,
    reduce_loop fuel callbackfn accumulator it = Some res -> fuel <= fuel' ->
    reduce_loop fuel' callbackfn accumulator it = Some res.
Proof.
  induction fuel as [|fuel IH]; intros fuel' acc it res H Hle; [discriminate|].
  destruct fuel' as [|fuel']; [lia|].
  assert (Hle' : fuel <= fuel') by lia.
  simpl in H |- *.
  destruct (Seq_next fuel it) as [[r it']|] eqn:E; [|discriminate].
  rewrite (Seq_next_mono _ _ _ _ E Hle').
  destruct (done r); [exact H|].
  destruct (destructure_pair (value_of r)) as [[index item0]|e]; [|exact H].
  destruct (callbackfn acc item0 index); [|exact H].
  now apply IH.
Qed.

(** ** Spreading a sequence, one pull at a time *)

Lemma Drains_nil (fuel : nat) (this this' : Seq) (r : IteratorResult) :
  Seq_next fuel this = Some (r, this') -> done r = true -> Drains this [].
Proof.
  intros H Hd. exists (S fuel), this'. simpl. now rewrite H, Hd.
Qed.

Lemma Drains_cons (fuel : nat) (this this' : Seq) (r : IteratorResult)
    (xs : list value) :
  Seq_next fuel this = Some (r, this') -> done r = false ->
  Drains this' xs -> Drains this (value_of r :: xs).
Proof.
  intros H Hd (fuel' & this'' & Hs).
  exists (S (Nat.max fuel fuel')), this''. simpl.
  rewrite (Seq_next_mono _ (Nat.max fuel fuel') _ _ H) by lia.
  rewrite Hd.
  now rewrite (spread_mono _ (Nat.max fuel fuel') _ _ Hs) by lia.
Qed.

Lemma Drains_nil_inv (this : Seq) :
  Drains this [] ->
  exists fuel r this', Seq_next fuel this = Some (r, this') /\ done r = true.
Proof.
  intros (fuel & this'' & Hs).
  destruct fuel as [|fuel]; [discriminate|]. simpl in Hs.
  destruct (Seq_next fuel this) as [[r this']|] eqn:E; [|discriminate].
  destruct (done r) eqn:Hd.
  - now exists fuel, r, this'.
  - destruct (spread fuel this') as [[xs ?]|]; discriminate.
Qed.

Lemma Drains_cons_inv (this : Seq) (x : value) (xs : list value) :
  Drains this (x :: xs) ->
  exists fuel r this',
    Seq_next fuel this = Some (r, this') /\ done r = false /\
    value_of r = x /\ Drains this' xs.
Proof.
  intros (fuel & this'' & Hs).
  destruct fuel as [|fuel]; [discriminate|]. simpl in Hs.
  destruct (Seq_next fuel this) as [[r this']|] eqn:E; [|discriminate].
  destruct (done r) eqn:Hd; [discriminate|].
  destruct (spread fuel this') as [[ys this3]|] eqn:E'; [|discriminate].
  injection Hs as Hx Hxs Hthis. subst.
  exists fuel, r, this'. repeat split; trivial.
  now exists fuel, this''.
Qed.

Lemma Drains_deterministic (this : Seq) (xs ys : list value) :
  Drains this xs -> Drains this ys -> xs = ys.
Proof.
  intros (f1 & s1 & H1) (f2 & s2 & H2).
  apply spread_mono with (fuel' := Nat.max f1 f2) in H1; [|lia].
  apply spread_mono with (fuel' := Nat.max f1 f2) in H2; [|lia].
  congruence.
Qed.

(** An array-backed sequence is finite: its elements are the array's. *)
Lemma Drains_of (values : list value) : Drains (Seq_of values) values.
Proof.
  unfold Seq_of, Seq_new. simpl.
  induction values as [|x rest IH].
  - now apply (Drains_nil 1 _ (new_Seq (ArrayIterator [])) result_done).
  - now apply (Drains_cons 1 _ (new_Seq (ArrayIterator rest)) (mkResult false x)).
Qed.

Lemma Seq_next_inv (fuel : nat) (it : Iterator) (r : IteratorResult) (this' : Seq) :
  Seq_next fuel (new_Seq it) = Some (r, this') ->
  exists it', next fuel it = Some (r, it') /\ this' = new_Seq it'.
Proof.
  rewrite Seq_next_new.
  destruct (next fuel it) as [[r0 it']|]; [|discriminate].
  intros [= -> <-]. now exists it'.
Qed.

Lemma new_Seq_iterator (this : Seq) : new_Seq (iterator this) = this.
Proof. now destruct this. Qed.

(** The first pull on the cursor of a finite sequence. *)
Lemma Drains_nil_cursor (it : Iterator) :
  Drains (new_Seq it) [] ->
  exists fuel r it', next fuel it = Some (r, it') /\ done r = true.
Proof.
  intros H. destruct (Drains_nil_inv _ H) as (fuel & r & this' & Hn & Hd).
  destruct (Seq_next_inv _ _ _ _ Hn) as (it' & Hs & _).
  now exists fuel, r, it'.
Qed.

Lemma Drains_cons_cursor (it : Iterator) (x : value) (xs : list value) :
  Drains (new_Seq it) (x :: xs) ->
  exists fuel r it',
    next fuel it = Some (r, it') /\ done r = false /\
    value_of r = x /\ Drains (new_Seq it') xs.
Proof.
  intros H.
  destruct (Drains_cons_inv _ _ _ H) as (fuel & r & this' & Hn & Hd & Hv & Hrest).
  destruct (Seq_next_inv _ _ _ _ Hn) as (it' & Hs & ->).
  now exists fuel, r, it'.
Qed.

Lemma Drains_first_pull (this : Seq) (xs : list value) :
  Drains this xs -> exists fuel r this', Seq_next fuel this = Some (r, this').
Proof.
  destruct xs as [|x xs]; intros H.
  - destruct (Drains_nil_inv _ H) as (fuel & r & this' & Hn & _). eauto.
  - destruct (Drains_cons_inv _ _ _ H) as (fuel & r & this' & Hn & _). eauto.
Qed.

(** A cursor whose pull is, with more fuel, the pull of another one has
    the same elements. *)
Lemma Drains_same_pull (a b : Iterator) (xs : list value) :
  (forall fuel res, next fuel b = Some res -> exists fuel', next fuel' a = Some res) ->
  Drains (new_Seq b) xs -> Drains (new_Seq a) xs.
Proof.
  intros Hab (fuel & this'' & Hs).
  destruct fuel as [|fuel]; [discriminate|]. simpl in Hs.
  destruct (Seq_next fuel (new_Seq b)) as [[r this']|] eqn:E; [|discriminate].
  destruct (Seq_next_inv _ _ _ _ E) as (b' & Hb & ->).
  destruct (Hab _ _ Hb) as (fuel' & Ha).
  assert (Hsa : Seq_next fuel' (new_Seq a) = Some (r, new_Seq b'))
    by now rewrite Seq_next_new, Ha.
  destruct (done r) eqn:Hd.
  - injection Hs as <- _. now apply (Drains_nil _ _ _ _ Hsa).
  - destruct (spread fuel (new_Seq b')) as [[ys s3]|] eqn:E'; [|discriminate].
    injection Hs as <- _.
    apply (Drains_cons _ _ _ _ _ Hsa Hd). now exists fuel, s3.
Qed.

(** ** filter *)

Lemma filter_skip (fuel : nat) (source source' : Iterator) (r : IteratorResult)
    (p : SeqCallback bool) (index : nat) (xs : list value) :
  next fuel source = Some (r, source') -> done r = false ->
  p (value_of r) (index_value index) = false ->
  Drains (new_Seq (FilterIterator source' p (S index))) xs ->
  Drains (new_Seq (FilterIterator source p index)) xs.
Proof.
  intros Hn Hd Hp. apply Drains_same_pull. intros fuel' res Hres.
  exists (S (Nat.max fuel fuel')). simpl.
  rewrite (next_mono _ (Nat.max fuel fuel') _ _ Hn) by lia.
  rewrite Hd, Hp. apply (next_mono _ _ _ _ Hres). lia.
Qed.

Lemma filter_drains_from (p : SeqCallback bool) (xs : list value) :
  forall source index,
    Drains (new_Seq source) xs ->
    Drains (new_Seq (FilterIterator source p index))
      (List.map snd (List.filter (at_position p) (indexed index xs))).
Proof.
  induction xs as [|x xs IH]; intros source index H.
  - destruct (Drains_nil_cursor _ H) as (fuel & r & source' & Hs & Hd).
    apply (Drains_nil (S fuel) _ (new_Seq (FilterIterator source' p index)) r);
      [|exact Hd].
    rewrite Seq_next_new. simpl. now rewrite Hs, Hd.
  - destruct (Drains_cons_cursor _ _ _ H) as (fuel & r & source' & Hs & Hd & Hv & Hrest).
    specialize (IH source' (S index) Hrest).
    unfold indexed in *. simpl. unfold at_position at 1. simpl.
    destruct (p x (index_value index)) eqn:Hp; simpl.
    + rewrite <- Hv.
      apply (Drains_cons (S fuel) _ (new_Seq (FilterIterator source' p (S index))) r);
        [|exact Hd|exact IH].
      rewrite Seq_next_new. simpl. now rewrite Hs, Hd, Hv, Hp.
    + apply (filter_skip fuel source source' r); trivial. now rewrite Hv.
Qed.

(** C4. For a finite sequence with elements [xs] and a predicate [p],
    [filter(p)] is the finite sequence of the elements of [xs] that
    satisfy [p], in the order of [xs]; the index given to [p] with an
    element is the position of that element in [xs], so it counts the
    discarded elements too. *)
Theorem filter_yields_satisfying_subsequence
    (p : SeqCallback bool) (this : Seq) (xs : list value) :
  Drains this xs ->
  Drains (Seq_filter p this)
    (List.map snd (List.filter (at_position p) (indexed 0 xs))).
Proof.
  intros H. unfold Seq_filter, Seq_new. simpl.
  apply filter_drains_from. now rewrite new_Seq_iterator.
Qed.

Lemma filter_yields_satisfying_subsequence_witness :
  Drains
    (Seq_filter (fun _ index => negb (strict_eq index (index_value 1)))
       (Seq_of [VNum (Num 7); VUndefined; VNum (Num 9)]))
    [VNum (Num 7); VNum (Num 9)].
Proof.
  apply (filter_yields_satisfying_subsequence
           (fun _ index => negb (strict_eq index (index_value 1)))
           (Seq_of [VNum (Num 7); VUndefined; VNum (Num 9)])
           [VNum (Num 7); VUndefined; VNum (Num 9)]).
  exists 5, (new_Seq (ArrayIterator [])). reflexivity.
Defined.

(** ** map *)

Lemma map_drains_from (f : SeqCallback value) (xs : list value) :
  forall source index,
    Drains (new_Seq source) xs ->
    Drains (new_Seq (MapIterator source f index)) (map_from f index xs).
Proof.
  induction xs as [|x xs IH]; intros source index H.
  - destruct (Drains_nil_cursor _ H) as (fuel & r & source' & Hs & Hd).
    assert (Hm : exists r' it', next (S fuel) (MapIterator source f index)
                                = Some (r', it') /\ done r' = true).
    { simpl. rewrite Hs.
      destruct (negb (strict_eq (value_of r) VUndefined)); eauto. }
    destruct Hm as (r' & it' & Hm & Hd').
    apply (Drains_nil (S fuel) _ (new_Seq it') r'); [|exact Hd'].
    now rewrite Seq_next_new, Hm.
  - destruct (Drains_cons_cursor _ _ _ H) as (fuel & r & source' & Hs & Hd & Hv & Hrest).
    subst x. cbn [map_from].
    destruct (strict_eq (value_of r) VUndefined) eqn:Hx.
    + apply (Drains_cons (S fuel) _ (new_Seq (MapIterator source' f index))
               (mkResult false (VBool false)));
        [|reflexivity|now apply IH].
      rewrite Seq_next_new. simpl. now rewrite Hs, Hx, Hd.
    + apply (Drains_cons (S fuel) _ (new_Seq (MapIterator source' f (S index)))
               (mkResult false (f (value_of r) (index_value index))));
        [|reflexivity|now apply IH].
      rewrite Seq_next_new. simpl. now rewrite Hs, Hx, Hd.
Qed.

(** What [map(f)] is on any finite sequence. *)
Lemma map_of_finite (f : SeqCallback value) (this : Seq) (xs : list value) :
  Drains this xs -> Drains (Seq_map f this) (map_from f 0 xs).
Proof.
  intros H. unfold Seq_map, Seq_new. simpl.
  apply map_drains_from. now rewrite new_Seq_iterator.
Qed.

Lemma map_from_defined (f : SeqCallback value) (xs : list value) :
  forall index,
    Forall defined xs ->
    map_from f index xs = List.map (at_position f) (indexed index xs).
Proof.
  induction xs as [|x xs IH]; intros index Hdef; [reflexivity|].
  inversion Hdef as [|? ? Hx Hxs]; subst.
  unfold indexed. cbn [map_from List.length seq combine List.map].
  rewrite Hx. f_equal. now apply IH.
Qed.

(** On a finite sequence none of whose elements is [undefined], [map(f)]
    is the sequence of [f] applied to each element and its position. *)
Lemma map_of_defined_elements (f : SeqCallback value) (this : Seq) (xs : list value) :
  Drains this xs ->
  Forall defined xs ->
  Drains (Seq_map f this) (List.map (at_position f) (indexed 0 xs)).
Proof.
  intros H Hdef. rewrite <- map_from_defined by exact Hdef.
  now apply map_of_finite.
Qed.

(** C1. [map(f)] does not apply [f] to an element that is [undefined]: it
    produces [false] in its place and leaves the index where it was, so
    the next element is given the index of the skipped one.  On
    [Seq.of(undefined, null)] the result is [[false, f(null, 0)]], not
    [[f(undefined, 0), f(null, 1)]]; [forEach] on the same sequence
    calls its callback with [(undefined, 0)] and [(null, 1)]. *)
Theorem map_skips_undefined_elements (f : SeqCallback value) :
  outcome (spread 5 (Seq_map f (Seq_of [VUndefined; VNull])))
  = Some [VBool false; f VNull (index_value 0)]
  /\ outcome (Seq_forEach 4 (Seq_of [VUndefined; VNull]))
     = Some [(VUndefined, index_value 0); (VNull, index_value 1)].
Proof. split; reflexivity. Qed.

(** ** zip *)

(** One step of [zip] pulls each source once, and reports exhaustion as
    soon as one of the two pulls reports it. *)
Lemma zip_step (fuel : nat) (iterator1 iterator2 iterator1' iterator2' : Iterator)
    (item1 item2 : IteratorResult) :
  next fuel iterator1 = Some (item1, iterator1') ->
  next fuel iterator2 = Some (item2, iterator2') ->
  next (S fuel) (ZipIterator iterator1 iterator2)
  = Some (if done item1 || done item2
          then result_done
          else mkResult false (VArr [value_of item1; value_of item2]),
          ZipIterator iterator1' iterator2').
Proof. intros H1 H2. simpl. now rewrite H1, H2. Qed.

Lemma zip_drains (xs : list value) :
  forall ys iterator1 iterator2,
    Drains (new_Seq iterator1) xs -> Drains (new_Seq iterator2) ys ->
    Drains (new_Seq (ZipIterator iterator1 iterator2))
      (List.map pair_value (combine xs ys)).
Proof.
  induction xs as [|x xs IH]; intros ys it1 it2 H1 H2.
  - destruct (Drains_nil_cursor _ H1) as (f1 & r1 & it1' & Hs1 & Hd1).
    destruct (Drains_first_pull _ _ H2) as (f2 & r2 & s2 & Hn2).
    destruct (Seq_next_inv _ _ _ _ Hn2) as (it2' & Hs2 & _).
    apply (Drains_nil (S (Nat.max f1 f2)) _ (new_Seq (ZipIterator it1' it2'))
             result_done); [|reflexivity].
    rewrite Seq_next_new.
    rewrite (zip_step _ _ _ it1' it2' r1 r2);
      [|apply (next_mono _ _ _ _ Hs1); lia|apply (next_mono _ _ _ _ Hs2); lia].
    now rewrite Hd1.
  - destruct (Drains_cons_cursor _ _ _ H1) as (f1 & r1 & it1' & Hs1 & Hd1 & Hv1 & Hrest1).
    destruct ys as [|y ys].
    + destruct (Drains_nil_cursor _ H2) as (f2 & r2 & it2' & Hs2 & Hd2).
      apply (Drains_nil (S (Nat.max f1 f2)) _ (new_Seq (ZipIterator it1' it2'))
               result_done); [|reflexivity].
      rewrite Seq_next_new.
      rewrite (zip_step _ _ _ it1' it2' r1 r2);
        [|apply (next_mono _ _ _ _ Hs1); lia|apply (next_mono _ _ _ _ Hs2); lia].
      now rewrite Hd2, orb_true_r.
    + destruct (Drains_cons_cursor _ _ _ H2) as (f2 & r2 & it2' & Hs2 & Hd2 & Hv2 & Hrest2).
      simpl. unfold pair_value at 1. simpl. rewrite <- Hv1, <- Hv2.
      apply (Drains_cons (S (Nat.max f1 f2)) _ (new_Seq (ZipIterator it1' it2'))
               (mkResult false (VArr [value_of r1; value_of r2])));
        [|reflexivity|now apply IH].
      rewrite Seq_next_new.
      rewrite (zip_step _ _ _ it1' it2' r1 r2);
        [|apply (next_mono _ _ _ _ Hs1); lia|apply (next_mono _ _ _ _ Hs2); lia].
      now rewrite Hd1, Hd2.
Qed.

(** ** concat *)

Lemma skipn_cons_inv {A : Type} (d : A) (n : nat) :
  forall (l : list A) (a : A) (rest : list A),
    skipn n l = a :: rest ->
    nth n l d = a /\ skipn (S n) l = rest /\ n < List.length l.
Proof.
  induction n as [|n IH]; intros l a rest H.
  - destruct l as [|b l]; [discriminate|]. simpl in H. injection H as -> ->.
    simpl. repeat split. lia.
  - destruct l as [|b l]; [discriminate|]. simpl in H.
    destruct (IH _ _ _ H) as (Hn & Hs & Hl). simpl. repeat split; trivial. lia.
Qed.

Lemma skipn_nil_inv {A : Type} (n : nat) :
  forall l : list A, skipn n l = [] -> List.length l <= n.
Proof.
  induction n as [|n IH]; intros l H.
  - destruct l; [simpl; lia|discriminate].
  - destruct l as [|b l]; simpl; [lia|]. simpl in H. specialize (IH _ H). lia.
Qed.

Lemma contributes_item_iterator (i : item) (run : list value) :
  contributes i run -> Drains (new_Seq (item_iterator i)) run.
Proof.
  destruct i as [s|v]; simpl; intros H.
  - now rewrite new_Seq_iterator.
  - subst. apply (Drains_of [v]).
Qed.

(** Moving on to the next argument once the current one is exhausted. *)
Lemma concat_advance (fuel : nat) (items : list item) (itemIndex : nat)
    (it it' : Iterator) (r : IteratorResult) (xs : list value) :
  next fuel it = Some (r, it') -> done r = true ->
  S itemIndex < List.length items ->
  Drains (new_Seq (ConcatIterator items (S itemIndex)
                     (item_iterator (item_at items (S itemIndex))))) xs ->
  Drains (new_Seq (ConcatIterator items itemIndex it)) xs.
Proof.
  intros Hn Hd Hlt. apply Drains_same_pull. intros fuel' res Hres.
  exists (S (Nat.max fuel fuel')). simpl.
  rewrite (next_mono _ (Nat.max fuel fuel') _ _ Hn) by lia.
  rewrite Hd. simpl.
  apply Nat.ltb_lt in Hlt. rewrite Hlt.
  apply (next_mono _ _ _ _ Hres). lia.
Qed.

Lemma concat_current_run (items : list item) (itemIndex : nat)
    (tail : list value) (ys : list value) :
  (forall it,
      Drains (new_Seq it) [] ->
      Drains (new_Seq (ConcatIterator items itemIndex it)) tail) ->
  forall it,
    Drains (new_Seq it) ys ->
    Drains (new_Seq (ConcatIterator items itemIndex it)) (ys ++ tail).
Proof.
  intros Hend. induction ys as [|y ys IH]; intros it H.
  - now apply Hend.
  - destruct (Drains_cons_cursor _ _ _ H) as (fuel & r & it' & Hs & Hd & Hv & Hrest).
    simpl. rewrite <- Hv.
    apply (Drains_cons (S fuel) _ (new_Seq (ConcatIterator items itemIndex it')) r);
      [|exact Hd|now apply IH].
    rewrite Seq_next_new. simpl. now rewrite Hs, Hd.
Qed.

Lemma concat_drains_from (items : list item) (runs : list (list value)) :
  forall itemIndex it ys,
    Drains (new_Seq it) ys ->
    Forall2 contributes (skipn (S itemIndex) items) runs ->
    Drains (new_Seq (ConcatIterator items itemIndex it)) (ys ++ List.concat runs).
Proof.
  induction runs as [|run runs IH]; intros itemIndex it ys H Hruns.
  - apply concat_current_run; [|exact H].
    intros it0 H0.
    destruct (Drains_nil_cursor _ H0) as (fuel & r & it' & Hs & Hd).
    remember (skipn (S itemIndex) items) as pending eqn:Hskip.
    inversion Hruns as [Hnil|]; subst pending.
    symmetry in Hnil. apply skipn_nil_inv in Hnil.
    apply (Drains_nil (S fuel) _
             (new_Seq (ConcatIterator items (S itemIndex) it')) result_done);
      [|reflexivity].
    rewrite Seq_next_new. simpl. rewrite Hs, Hd. simpl.
    assert (Hge : (S itemIndex <? List.length items) = false)
      by (apply Nat.ltb_ge; lia).
    now rewrite Hge.
  - apply concat_current_run; [|exact H].
    intros it0 H0.
    destruct (Drains_nil_cursor _ H0) as (fuel & r & it' & Hs & Hd).
    remember (skipn (S itemIndex) items) as pending eqn:Hskip.
    inversion Hruns as [|i run' rest runs' Hi Hrest Hpending Hrun].
    subst run' runs'. rewrite <- Hpending in Hskip. clear Hpending.
    symmetry in Hskip.
    destruct (skipn_cons_inv (ItemValue VUndefined) _ _ _ _ Hskip)
      as (Hnth & Hnext & Hlt).
    apply (concat_advance fuel items itemIndex it0 it' r); trivial.
    simpl List.concat. apply IH.
    + unfold item_at. rewrite Hnth. now apply contributes_item_iterator.
    + now rewrite Hnext.
Qed.

(** C7. [concat(...items)] is the finite sequence of what its arguments
    contribute, argument after argument from left to right: the elements
    of an argument that is a [Seq], the argument itself when it is a bare
    value.  [concat(Seq.of(1,2), 3, Seq.of(4))] spreads to [[1,2,3,4]],
    and [concat()] is [Seq.empty], whose first pull reports exhaustion. *)
Theorem concat_chains_items_left_to_right
    (items : list item) (runs : list (list value)) :
  Forall2 contributes items runs ->
  Drains (Seq_concat items) (List.concat runs)
  /\ outcome (spread 8 (Seq_concat
                         [ItemSeq (Seq_of [VNum (Num 1); VNum (Num 2)]);
                          ItemValue (VNum (Num 3));
                          ItemSeq (Seq_of [VNum (Num 4)])]))
     = Some [VNum (Num 1); VNum (Num 2); VNum (Num 3); VNum (Num 4)]
  /\ Seq_concat [] = Seq_empty
  /\ Seq_next 1 Seq_empty = Some (result_done, Seq_empty).
Proof.
  intros H. split; [|split; [|split]]; try reflexivity.
  destruct H as [|i run items runs Hi Hrest].
  - apply (Drains_of []).
  - unfold Seq_concat, Seq_new. simpl.
    apply concat_drains_from.
    + now apply contributes_item_iterator.
    + exact Hrest.
Qed.

Lemma concat_chains_items_left_to_right_witness :
  Drains (Seq_concat [ItemSeq (Seq_of [VNum (Num 1); VNum (Num 2)]);
                      ItemValue (VNum (Num 3));
                      ItemSeq (Seq_of [VNum (Num 4)])])
         [VNum (Num 1); VNum (Num 2); VNum (Num 3); VNum (Num 4)].
Proof.
  apply (concat_chains_items_left_to_right
           [ItemSeq (Seq_of [VNum (Num 1); VNum (Num 2)]);
            ItemValue (VNum (Num 3));
            ItemSeq (Seq_of [VNum (Num 4)])]
           [[VNum (Num 1); VNum (Num 2)]; [VNum (Num 3)]; [VNum (Num 4)]]).
  repeat constructor.
  - exists 4, (new_Seq (ArrayIterator [])). reflexivity.
  - exists 3, (new_Seq (ArrayIterator [])). reflexivity.
Defined.

(** ** The cursor of [entries()] *)

Lemma entries_pull_element (fuel : nat) (source source' : Iterator)
    (r : IteratorResult) (index : nat) :
  next fuel source = Some (r, source') -> done r = false -> defined (value_of r) ->
  Seq_next (S fuel) (new_Seq (MapIterator source entry index))
  = Some (mkResult false (VArr [index_value index; value_of r]),
          new_Seq (MapIterator source' entry (S index))).
Proof.
  intros Hn Hd Hv. rewrite Seq_next_new. simpl. now rewrite Hn, Hv, Hd.
Qed.

Lemma entries_pull_exhausted (fuel : nat) (source source' : Iterator)
    (r : IteratorResult) (index : nat) :
  next fuel source = Some (r, source') -> done r = true ->
  exists r' this',
    Seq_next (S fuel) (new_Seq (MapIterator source entry index)) = Some (r', this')
    /\ done r' = true
    /\ (value_of r = VUndefined -> value_of r' = VBool false)
    /\ (defined (value_of r) -> exists elems, value_of r' = VArr elems).
Proof.
  intros Hn Hd. rewrite Seq_next_new. simpl. rewrite Hn.
  destruct (strict_eq (value_of r) VUndefined) eqn:Hv; simpl.
  - eexists _, _. repeat split; trivial. unfold defined. congruence.
  - eexists _, _. repeat split; trivial.
    + intros Hu. rewrite Hu in Hv. discriminate.
    + intros _. eexists. reflexivity.
Qed.

Lemma entries_pull_undefined (fuel : nat) (source source' : Iterator)
    (r : IteratorResult) (index : nat) :
  next fuel source = Some (r, source') -> value_of r = VUndefined ->
  Seq_next (S fuel) (new_Seq (MapIterator source entry index))
  = Some (mkResult (done r) (VBool false),
          new_Seq (MapIterator source' entry index)).
Proof.
  intros Hn Hv. rewrite Seq_next_new. simpl. now rewrite Hn, Hv.
Qed.

(** ** findIndex *)

Lemma findIndex_loop_counting (callback : SeqCallback bool) (gap : nat) :
  forall start fuel,
    (forall i, start <= i < start + gap ->
               callback (index_value i) (index_value i) = false) ->
    callback (index_value (start + gap)) (index_value (start + gap)) = true ->
    gap + 2 < fuel ->
    findIndex_loop fuel callback
      (new_Seq (MapIterator (InfiniteIterator start) entry start))
    = Some (Normal (index_value (start + gap)),
            new_Seq (MapIterator (InfiniteIterator (S (start + gap))) entry
                       (S (start + gap)))).
Proof.
  induction gap as [|gap IH]; intros start fuel Hbefore Hat Hfuel.
  - destruct fuel as [|fuel]; [lia|].
    rewrite Nat.add_0_r in *.
    cbn [findIndex_loop].
    destruct fuel as [|[|fuel]]; try lia.
    rewrite (entries_pull_element _ (InfiniteIterator start)
               (InfiniteIterator (S start))
               (mkResult false (index_value start))); try reflexivity.
    cbn [done value_of destructure_pair nth]. now rewrite Hat.
  - destruct fuel as [|fuel]; [lia|].
    cbn [findIndex_loop].
    destruct fuel as [|[|fuel]]; try lia.
    rewrite (entries_pull_element _ (InfiniteIterator start)
               (InfiniteIterator (S start))
               (mkResult false (index_value start))); try reflexivity.
    cbn [done value_of destructure_pair nth].
    rewrite (Hbefore start) by lia.
    replace (start + S gap) with (S start + gap) in * by lia.
    apply IH; trivial; [|lia].
    intros i Hi. apply Hbefore. lia.
Qed.

Lemma pulled_infinite (n : nat) :
  forall start it,
    pulled n (InfiniteIterator start) it <-> it = InfiniteIterator (start + n).
Proof.
  induction n as [|n IH]; intros start it; split; intros H.
  - inversion H; subst. now rewrite Nat.add_0_r.
  - subst. rewrite Nat.add_0_r. constructor.
  - inversion H as [|? ? fuel r it' ? Hn Hp]; subst.
    destruct fuel as [|fuel]; [discriminate|]. simpl in Hn.
    injection Hn as _ <-. apply IH in Hp. subst. f_equal. lia.
  - subst. apply (pulled_S n _ 1 (mkResult false (index_value start))
                    (InfiniteIterator (S start))); [reflexivity|].
    apply IH. f_equal. lia.
Qed.

(** C8. On [initInfinite()], whose elements are [0, 1, 2, ...], with a
    predicate that is false at the positions before [k] and true at [k],
    [findIndex] returns [k] (with any fuel above [k + 2]), and it leaves
    the cursor of the infinite sequence where [k + 1] pulls, and no other
    number of pulls, take it. *)
Theorem findIndex_on_initInfinite_pulls_up_to_first_match
    (callback : SeqCallback bool) (k fuel : nat) :
  (forall i, i < k -> callback (index_value i) (index_value i) = false) ->
  callback (index_value k) (index_value k) = true ->
  k + 2 < fuel ->
  exists source',
    Seq_findIndex fuel callback (Seq_initInfinite None)
    = Some (Normal (index_value k), new_Seq (MapIterator source' entry (S k)))
    /\ forall n, pulled n (iterator (Seq_initInfinite None)) source' <-> n = S k.
Proof.
  intros Hbefore Hat Hfuel. exists (InfiniteIterator (S k)). split.
  - unfold Seq_findIndex, Seq_initInfinite, Seq_entries, Seq_map, Seq_new. simpl.
    apply (findIndex_loop_counting callback k 0 fuel); trivial.
    intros i Hi. apply Hbefore. lia.
  - intros n. simpl. rewrite pulled_infinite. simpl. split.
    + now intros [= ->].
    + now intros ->.
Qed.

Lemma findIndex_on_initInfinite_pulls_up_to_first_match_witness :
  exists source',
    Seq_findIndex 5 (fun item _ => strict_eq item (VNum (Num 2)))
      (Seq_initInfinite None)
    = Some (Normal (index_value 2), new_Seq (MapIterator source' entry 3))
    /\ forall n, pulled n (iterator (Seq_initInfinite None)) source' <-> n = 3.
Proof.
  apply (findIndex_on_initInfinite_pulls_up_to_first_match
           (fun item _ => strict_eq item (VNum (Num 2))) 2 5).
  - intros i Hi. destruct i as [|[|i]]; [reflexivity|reflexivity|lia].
  - reflexivity.
  - lia.
Defined.

(** ** reduce *)

Lemma reduce_loop_entries (callbackfn : ReduceCallback) (xs : list value) :
  forall source index accumulator,
    Drains (new_Seq source) xs -> Forall defined xs ->
    exists fuel,
      outcome (reduce_loop fuel callbackfn accumulator
                 (new_Seq (MapIterator source entry index)))
      = Some (fold_from callbackfn index accumulator xs).
Proof.
  induction xs as [|x xs IH]; intros source index acc H Hdef.
  - destruct (Drains_nil_cursor _ H) as (fuel & r & source' & Hs & Hd).
    destruct (entries_pull_exhausted _ _ _ _ index Hs Hd)
      as (r' & s' & Hp & Hd' & _).
    exists (S (S fuel)). cbn [reduce_loop]. now rewrite Hp, Hd'.
  - destruct (Drains_cons_cursor _ _ _ H) as (fuel & r & source' & Hs & Hd & Hv & Hrest).
    inversion Hdef as [|? ? Hx Hxs]; subst.
    cbn [fold_from].
    destruct (callbackfn acc (value_of r) (index_value index)) as [acc'|e] eqn:Hcall.
    + destruct (IH source' (S index) acc' Hrest Hxs) as (fuel' & Hloop).
      exists (S (Nat.max (S fuel) fuel')). cbn [reduce_loop].
      rewrite (Seq_next_mono (S fuel) (Nat.max (S fuel) fuel') _ _
                 (entries_pull_element _ _ _ _ index Hs Hd Hx)) by lia.
      cbn [done value_of destructure_pair nth]. rewrite Hcall.
      destruct (reduce_loop fuel' callbackfn acc' _) as [res|] eqn:E;
        [|discriminate].
      now rewrite (reduce_loop_mono _ _ (Nat.max (S fuel) fuel') _ _ _ E) by lia.
    + exists (S (S fuel)). cbn [reduce_loop].
      rewrite (entries_pull_element _ _ _ _ index Hs Hd Hx).
      cbn [done value_of destructure_pair nth]. now rewrite Hcall.
Qed.

(** On a finite sequence whose elements [x :: xs] are not [undefined],
    [reduce] without an initial value takes [x] as the first accumulator
    and folds [xs] from position 1, left to right; with one element the
    callback is not called and the element is returned, whatever the
    callback would do. *)
Lemma reduce_seeds_with_first_element (callbackfn : ReduceCallback) (this : Seq)
    (x : value) (xs : list value) :
  Drains this (x :: xs) -> Forall defined (x :: xs) ->
  exists fuel,
    outcome (Seq_reduce fuel callbackfn None this)
    = Some (fold_from callbackfn 1 x xs).
Proof.
  intros H Hdef. destruct this as [source].
  destruct (Drains_cons_cursor _ _ _ H) as (fuel & r & source' & Hs & Hd & Hv & Hrest).
  inversion Hdef as [|? ? Hx Hxs]; subst.
  destruct (reduce_loop_entries callbackfn xs source' 1 (value_of r) Hrest Hxs)
    as (fuel' & Hloop).
  exists (Nat.max (S fuel) fuel').
  unfold Seq_reduce, Seq_entries, Seq_map, Seq_new.
  cbn [optional_argument strict_eq symbol_iterator iterator].
  rewrite (Seq_next_mono (S fuel) (Nat.max (S fuel) fuel') _ _
             (entries_pull_element _ _ _ _ 0 Hs Hd Hx)) by lia.
  cbn [done value_of destructure_pair nth].
  destruct (reduce_loop fuel' callbackfn (value_of r) _) as [res|] eqn:E;
    [|discriminate].
  now rewrite (reduce_loop_mono _ _ (Nat.max (S fuel) fuel') _ _ _ E) by lia.
Qed.

(** With an initial value that is not [undefined], [reduce] folds every
    element from position 0. *)
Lemma reduce_with_initial_value (callbackfn : ReduceCallback) (this : Seq)
    (initialValue : value) (xs : list value) :
  Drains this xs -> Forall defined xs -> defined initialValue ->
  exists fuel,
    outcome (Seq_reduce fuel callbackfn (Some initialValue) this)
    = Some (fold_from callbackfn 0 initialValue xs).
Proof.
  intros H Hdef Hinit. destruct this as [source].
  destruct (reduce_loop_entries callbackfn xs source 0 initialValue H Hdef)
    as (fuel & Hloop).
  exists fuel. unfold Seq_reduce, Seq_entries, Seq_map, Seq_new.
  cbn [optional_argument symbol_iterator iterator].
  now rewrite Hinit.
Qed.

(** When the first pull on the sequence returns [undefined] as its value,
    be it with [done] or as an element, [reduce] without an initial value
    throws the TypeError of destructuring [false]. *)
Lemma reduce_throws_on_undefined_first_value (callbackfn : ReduceCallback)
    (this this' : Seq) (fuel : nat) (r : IteratorResult) :
  Seq_next fuel this = Some (r, this') -> value_of r = VUndefined ->
  outcome (Seq_reduce (S fuel) callbackfn None this)
  = Some (Throw (NotIterable (VBool false))).
Proof.
  destruct this as [source]. intros Hn Hv.
  destruct (Seq_next_inv _ _ _ _ Hn) as (source' & Hs & _).
  unfold Seq_reduce, Seq_entries, Seq_map, Seq_new.
  cbn [optional_argument strict_eq symbol_iterator iterator].
  now rewrite (entries_pull_undefined _ _ _ _ 0 Hs Hv).
Qed.

(** A sequence whose first pull reports exhaustion makes [reduce] without
    an initial value throw: the TypeError of destructuring [false] when
    the exhausted result carries no value, [EmptyReduction] when it
    carries one (the return value of a generator). *)
Lemma reduce_of_exhausted_throws (callbackfn : ReduceCallback) (this this' : Seq)
    (fuel : nat) (r : IteratorResult) :
  Seq_next fuel this = Some (r, this') -> done r = true ->
  outcome (Seq_reduce (S fuel) callbackfn None this)
  = Some (Throw (if strict_eq (value_of r) VUndefined
                 then NotIterable (VBool false)
                 else EmptyReduction)).
Proof.
  destruct this as [source]. intros Hn Hd.
  destruct (Seq_next_inv _ _ _ _ Hn) as (source' & Hs & _).
  unfold Seq_reduce, Seq_entries, Seq_map, Seq_new.
  cbn [optional_argument strict_eq symbol_iterator iterator].
  rewrite Seq_next_new. simpl. rewrite Hs.
  destruct (strict_eq (value_of r) VUndefined); simpl.
  - reflexivity.
  - now rewrite Hd.
Qed.

(** C2. [reduce] with no initial value on [Seq.empty], and on [Seq.of()],
    throws, but what it throws is the TypeError raised by destructuring
    [false] (the value that the cursor of [entries()] gives with
    [done]), before the test of [done] is reached; it is not the
    TypeError with the message 'Reduce of empty Seq with no initial
    value'. *)
Theorem reduce_of_empty_throws_before_done_test
    (callbackfn : ReduceCallback) (fuel : nat) :
  outcome (Seq_reduce (S (S fuel)) callbackfn None Seq_empty)
  = Some (Throw (NotIterable (VBool false)))
  /\ outcome (Seq_reduce (S (S fuel)) callbackfn None (Seq_of []))
     = Some (Throw (NotIterable (VBool false)))
  /\ NotIterable (VBool false) <> EmptyReduction.
Proof.
  repeat split; discriminate.
Qed.

(** C3. [reduce] with no initial value on [Seq.of(undefined)], a sequence
    of exactly one element, does not return that element: it throws the
    TypeError raised by destructuring [false], which is what the cursor
    of [entries()] produces for an element that is [undefined].  The
    same happens at an [undefined] element further on, as in
    [Seq.of(1, undefined)]. *)
Theorem reduce_of_single_undefined_throws
    (callbackfn : ReduceCallback) (fuel : nat) :
  outcome (Seq_reduce (S (S fuel)) callbackfn None (Seq_of [VUndefined]))
  = Some (Throw (NotIterable (VBool false)))
  /\ outcome (Seq_reduce (S (S (S fuel))) callbackfn None
                (Seq_of [VNum (Num 1); VUndefined]))
     = Some (Throw (NotIterable (VBool false))).
Proof.
  split; reflexivity.
Qed.

(** [reduce(f, undefined)] is [reduce(f)]: the two calls return the
    same result and leave the same cursor, with any fuel.  So
    [reduce(f, undefined)] throws on a sequence whose first pull reports
    exhaustion, and on a finite sequence of elements [x :: xs], none of
    them [undefined], it takes [x] as the first accumulator and folds
    [xs] from position 1. *)
Theorem reduce_undefined_initial_value_is_none
    (callbackfn : ReduceCallback) (this : Seq) :
  (forall fuel,
      Seq_reduce fuel callbackfn (Some VUndefined) this
      = Seq_reduce fuel callbackfn None this)
  /\ (forall fuel r this',
         Seq_next fuel this = Some (r, this') -> done r = true ->
         exists e,
           outcome (Seq_reduce (S fuel) callbackfn (Some VUndefined) this)
           = Some (Throw e))
  /\ (forall x xs,
         Drains this (x :: xs) -> Forall defined (x :: xs) ->
         exists fuel,
           outcome (Seq_reduce fuel callbackfn (Some VUndefined) this)
           = Some (fold_from callbackfn 1 x xs)).
Proof.
  split; [reflexivity|split].
  - intros fuel r this' Hn Hd.
    change (Seq_reduce (S fuel) callbackfn (Some VUndefined) this)
      with (Seq_reduce (S fuel) callbackfn None this).
    rewrite (reduce_of_exhausted_throws callbackfn this this' fuel r Hn Hd).
    eauto.
  - intros x xs H Hdef.
    now apply (reduce_seeds_with_first_element callbackfn this x xs).
Qed.

Lemma reduce_undefined_initial_value_is_none_witness :
  (exists e,
      outcome (Seq_reduce 2 (fun _ _ _ => Throw (Raised VNull))
                 (Some VUndefined) Seq_empty)
      = Some (Throw e))
  /\ (exists fuel,
         outcome (Seq_reduce fuel (fun acc x _ => Normal (VArr [acc; x]))
                    (Some VUndefined) (Seq_of [VNum (Num 1); VNum (Num 2)]))
         = Some (Normal (VArr [VNum (Num 1); VNum (Num 2)]))).
Proof.
  split.
  - apply (proj1 (proj2 (reduce_undefined_initial_value_is_none
                           (fun _ _ _ => Throw (Raised VNull)) Seq_empty))
             1 result_done Seq_empty); reflexivity.
  - apply (proj2 (proj2 (reduce_undefined_initial_value_is_none
                           (fun acc x _ => Normal (VArr [acc; x]))
                           (Seq_of [VNum (Num 1); VNum (Num 2)])))
             (VNum (Num 1)) [VNum (Num 2)]).
    + exists 4, (new_Seq (ArrayIterator [])). reflexivity.
    + repeat constructor.
Defined.

(** C10. [reduce(f, undefined)] does what [reduce(f)] does, on every
    sequence and with any fuel: [undefined] is not used as a seed.  On a
    sequence whose first element is [undefined], as
    [Seq.of(undefined, 1)], it does not take that element as the seed
    and fold from the second one: it throws the TypeError raised by
    destructuring [false], and so it does when an element further on is
    [undefined], as in [Seq.of(1, undefined)]. *)
Theorem reduce_undefined_initial_value_throws_at_undefined_element
    (callbackfn : ReduceCallback) (fuel : nat) :
  outcome (Seq_reduce (S (S fuel)) callbackfn (Some VUndefined)
             (Seq_of [VUndefined; VNum (Num 1)]))
  = Some (Throw (NotIterable (VBool false)))
  /\ outcome (Seq_reduce (S (S (S fuel))) callbackfn (Some VUndefined)
                (Seq_of [VNum (Num 1); VUndefined]))
     = Some (Throw (NotIterable (VBool false)))
  /\ (forall this fuel',
         Seq_reduce fuel' callbackfn (Some VUndefined) this
         = Seq_reduce fuel' callbackfn None this).
Proof.
  repeat split.
Qed.

(** ** includes *)

Lemma includes_loop_mono (searchElement : value) (fromIndex : option number)
    (fuel : nat) :
  forall fuel' it res,
    includes_loop fuel searchElement fromIndex it = Some res -> fuel <= fuel' ->
    includes_loop fuel' searchElement fromIndex it = Some res.
Proof.
  induction fuel as [|fuel IH]; intros fuel' it res H Hle; [discriminate|].
  destruct fuel' as [|fuel']; [lia|].
  assert (Hle' : fuel <= fuel') by lia.
  simpl in H |- *.
  destruct (Seq_next fuel it) as [[r it']|] eqn:E; [|discriminate].
  rewrite (Seq_next_mono _ _ _ _ E Hle').
  destruct (done r); [exact H|].
  destruct (destructure_pair (value_of r)) as [[index item0]|e]; [|exact H].
  match goal with |- (if ?c then _ else _) = _ => destruct c end; [exact H|].
  now apply IH.
Qed.

Lemma includes_loop_entries (searchElement : value) (fromIndex : option number)
    (xs : list value) :
  forall source index,
    Drains (new_Seq source) xs -> Forall defined xs ->
    exists fuel,
      outcome (includes_loop fuel searchElement fromIndex
                 (new_Seq (MapIterator source entry index)))
      = Some (Normal (existsb (includes_test searchElement fromIndex)
                        (indexed index xs))).
Proof.
  induction xs as [|x xs IH]; intros source index H Hdef.
  - destruct (Drains_nil_cursor _ H) as (fuel & r & source' & Hs & Hd).
    destruct (entries_pull_exhausted _ _ _ _ index Hs Hd)
      as (r' & s' & Hp & Hd' & _).
    exists (S (S fuel)). cbn [includes_loop]. now rewrite Hp, Hd'.
  - destruct (Drains_cons_cursor _ _ _ H) as (fuel & r & source' & Hs & Hd & Hv & Hrest).
    inversion Hdef as [|? ? Hx Hxs]; subst.
    unfold indexed. cbn [List.length seq combine existsb].
    fold (indexed (S index) xs).
    destruct (includes_test searchElement fromIndex (index, value_of r)) eqn:Htest.
    + exists (S (S fuel)). cbn [includes_loop].
      rewrite (entries_pull_element _ _ _ _ index Hs Hd Hx).
      cbn [done value_of destructure_pair nth].
      unfold includes_test in Htest. cbn [fst snd] in Htest.
      unfold index_value, index_geb. now rewrite Htest.
    + destruct (IH source' (S index) Hrest Hxs) as (fuel' & Hloop).
      exists (S (Nat.max (S fuel) fuel')). cbn [includes_loop].
      rewrite (Seq_next_mono (S fuel) (Nat.max (S fuel) fuel') _ _
                 (entries_pull_element _ _ _ _ index Hs Hd Hx)) by lia.
      cbn [done value_of destructure_pair nth].
      unfold includes_test in Htest. cbn [fst snd] in Htest.
      unfold index_value, index_geb. rewrite Htest. cbn [orb].
      destruct (includes_loop fuel' searchElement fromIndex _) as [res|] eqn:E;
        [|discriminate].
      now rewrite (includes_loop_mono _ _ _ (Nat.max (S fuel) fuel') _ _ E) by lia.
Qed.

(** On a finite sequence none of whose elements is [undefined],
    [includes] returns whether some element at a position at or above
    [fromIndex] (any position when [fromIndex] is left out) is the search
    element under [sameValueZero]. *)
Lemma includes_of_defined_elements (searchElement : value)
    (fromIndex : option number) (this : Seq) (xs : list value) :
  Drains this xs -> Forall defined xs ->
  exists fuel,
    outcome (Seq_includes fuel searchElement fromIndex this)
    = Some (Normal (existsb (includes_test searchElement fromIndex) (indexed 0 xs))).
Proof.
  intros H Hdef. destruct this as [source].
  now apply includes_loop_entries.
Qed.

(** [sameValueZero] is strict identity, or NaN on both sides. *)
Lemma sameValueZero_spec (x y : value) :
  sameValueZero x y = true <->
  strict_eq x y = true \/ (x = VNum NaN /\ y = VNum NaN).
Proof.
  unfold sameValueZero. rewrite orb_true_iff. split; intros [H|H]; auto.
  - right. destruct x as [| |?|[|?]|?|?|?]; try discriminate;
      destruct y as [| |?|[|?]|?|?|?]; try discriminate. auto.
  - destruct H as [-> ->]. now right.
Qed.

(** C9. [includes] throws on a sequence that has an element [undefined]
    before any match: [Seq.of(undefined).includes(undefined)] does not
    return true, and [Seq.of(undefined, NaN).includes(NaN)] does not
    either; both end in the TypeError raised by destructuring [false]. *)
Theorem includes_throws_at_undefined_element (fuel : nat) :
  outcome (Seq_includes (S (S (S fuel))) VUndefined None (Seq_of [VUndefined]))
  = Some (Throw (NotIterable (VBool false)))
  /\ outcome (Seq_includes (S (S (S fuel))) (VNum NaN) None
                (Seq_of [VUndefined; VNum NaN]))
     = Some (Throw (NotIterable (VBool false)))
  /\ sameValueZero VUndefined VUndefined = true
  /\ sameValueZero (VNum NaN) (VNum NaN) = true.
Proof.
  repeat split.
Qed.

(** ** Exhaustion *)

Lemma item_at_built (zip_source : Iterator -> Prop) (items : list item)
    (itemIndex : nat) :
  (forall s, In (ItemSeq s) items -> engine_built zip_source (iterator s)) ->
  itemIndex < List.length items ->
  engine_built zip_source (item_iterator (item_at items itemIndex)).
Proof.
  intros Hitems Hlt. unfold item_at.
  assert (Hin : In (nth itemIndex items (ItemValue VUndefined)) items)
    by now apply nth_In.
  destruct (nth itemIndex items (ItemValue VUndefined)) as [s|v]; simpl.
  - now apply Hitems.
  - constructor.
Qed.

(** The constructors and adapters of the engine build such cursors. *)
Lemma constructors_engine_built (zip_source : Iterator -> Prop) :
  (forall values, engine_built zip_source (iterator (Seq_of values)))
  /\ engine_built zip_source (iterator Seq_empty)
  /\ (forall iterable,
         engine_built zip_source (symbol_iterator iterable) ->
         engine_built zip_source (iterator (Seq_from iterable)))
  /\ (forall callback this,
         engine_built zip_source (iterator this) ->
         engine_built zip_source (iterator (Seq_map callback this)))
  /\ (forall callback this,
         engine_built zip_source (iterator this) ->
         engine_built zip_source (iterator (Seq_filter callback this)))
  /\ (forall items,
         (forall s, In (ItemSeq s) items -> engine_built zip_source (iterator s)) ->
         engine_built zip_source (iterator (Seq_concat items)))
  /\ (forall source1 source2,
         engine_built zip_source (symbol_iterator source1) ->
         engine_built zip_source (symbol_iterator source2) ->
         zip_source (symbol_iterator source1) ->
         zip_source (symbol_iterator source2) ->
         engine_built zip_source (iterator (Seq_zip source1 source2)))
  /\ (forall count initializer s,
         Seq_init count initializer = Normal s ->
         engine_built zip_source (iterator s))
  /\ (forall initializer,
         engine_built zip_source (iterator (Seq_initInfinite initializer))).
Proof.
  repeat split.
  - intros values. constructor.
  - constructor.
  - intros iterable H. exact H.
  - intros callback this H. now constructor.
  - intros callback this H. now constructor.
  - intros [|i items] H; [constructor|].
    unfold Seq_concat. cbn [List.length Nat.ltb Nat.leb Seq_new iterator
                              symbol_iterator].
    constructor; [|exact H].
    apply item_at_built; [exact H|simpl; lia].
  - intros source1 source2 H1 H2 Hz1 Hz2. now constructor.
  - intros count initializer s. unfold Seq_init, array_keys.
    destruct (Z.of_nat count <? 4294967296)%Z; [|discriminate].
    destruct initializer as [initializer|]; intros [= <-]; simpl;
      repeat constructor.
  - intros [initializer|]; simpl; repeat constructor.
Qed.

Section Pulls.

Variable zip_source : Iterator -> Prop.

(** The condition on the sources of a [zip] survives a pull. *)
Hypothesis zip_source_next :
  forall it fuel r it',
    zip_source it -> next fuel it = Some (r, it') -> zip_source it'.

Lemma engine_built_next (fuel : nat) :
  forall it r it',
    engine_built zip_source it -> next fuel it = Some (r, it') ->
    engine_built zip_source it'.
Proof.
  induction fuel as [|fuel IH]; intros it r it' Hb Hn; [discriminate|].
  simpl in Hn.
  destruct Hb as [rest|results pulls Hk|source cb index Hs|source cb index Hs
                 |items itemIndex it Hit Hitems|index|it1 it2 H1 H2 Hz1 Hz2].
  - destruct rest; injection Hn as _ <-; constructor.
  - injection Hn as _ <-. constructor.
    intros i j Hi Hj. apply Hk; lia.
  - destruct (next fuel source) as [[r0 source']|] eqn:E; [|discriminate].
    specialize (IH _ _ _ Hs E).
    destruct (negb (strict_eq (value_of r0) VUndefined));
      injection Hn as _ <-; now constructor.
  - destruct (next fuel source) as [[r0 source']|] eqn:E; [|discriminate].
    assert (Hs' := IH _ _ _ Hs E).
    destruct (done r0); [injection Hn as _ <-; now constructor|].
    destruct (cb (value_of r0) (index_value index));
      [injection Hn as _ <-; now constructor|].
    apply (IH _ _ _ (built_filter _ _ cb (S index) Hs') Hn).
  - destruct (next fuel it) as [[r0 it0]|] eqn:E; [|discriminate].
    assert (Hit' := IH _ _ _ Hit E).
    destruct (negb (done r0)); [injection Hn as _ <-; now constructor|].
    destruct (S itemIndex <? List.length items) eqn:Hlt.
    + apply Nat.ltb_lt in Hlt.
      refine (IH _ _ _ _ Hn). constructor; trivial.
      now apply item_at_built.
    + injection Hn as _ <-. now constructor.
  - injection Hn as _ <-. constructor.
  - destruct (next fuel it1) as [[r1 it1']|] eqn:E1; [|discriminate].
    destruct (next fuel it2) as [[r2 it2']|] eqn:E2; [|discriminate].
    injection Hn as _ <-.
    constructor; eauto.
Qed.

(** The pull that reports exhaustion leaves the cursor [exhausted]. *)
Lemma exhaustion_report (fuel : nat) :
  forall it r it',
    engine_built zip_source it -> next fuel it = Some (r, it') ->
    done r = true -> exhausted it'.
Proof.
  induction fuel as [|fuel IH]; intros it r it' Hb Hn Hd; [discriminate|].
  simpl in Hn.
  destruct Hb as [rest|results pulls Hk|source cb index Hs|source cb index Hs
                 |items itemIndex it Hit Hitems|index|it1 it2 H1 H2 Hz1 Hz2].
  - destruct rest; injection Hn as <- <-; [constructor|discriminate].
  - injection Hn as <- <-. constructor.
    intros j Hj. apply (Hk pulls j); trivial; lia.
  - destruct (next fuel source) as [[r0 source']|] eqn:E; [|discriminate].
    destruct (negb (strict_eq (value_of r0) VUndefined));
      injection Hn as <- <-; constructor; apply (IH _ _ _ Hs E Hd).
  - destruct (next fuel source) as [[r0 source']|] eqn:E; [|discriminate].
    destruct (done r0) eqn:Hd0.
    + injection Hn as <- <-. constructor. apply (IH _ _ _ Hs E Hd0).
    + destruct (cb (value_of r0) (index_value index)).
      * injection Hn as <- <-. congruence.
      * refine (IH _ _ _ _ Hn Hd). constructor.
        apply (engine_built_next _ _ _ _ Hs E).
  - destruct (next fuel it) as [[r0 it0]|] eqn:E; [|discriminate].
    destruct (done r0) eqn:Hd0; simpl in Hn.
    + destruct (S itemIndex <? List.length items) eqn:Hlt.
      * apply Nat.ltb_lt in Hlt.
        refine (IH _ _ _ _ Hn Hd). constructor; trivial.
        now apply item_at_built.
      * apply Nat.ltb_ge in Hlt. injection Hn as <- <-.
        constructor; [lia|]. apply (IH _ _ _ Hit E Hd0).
    + injection Hn as <- <-. congruence.
  - injection Hn as <- <-. discriminate.
  - destruct (next fuel it1) as [[r1 it1']|] eqn:E1; [|discriminate].
    destruct (next fuel it2) as [[r2 it2']|] eqn:E2; [|discriminate].
    injection Hn as <- <-.
    destruct (done r1) eqn:Hd1.
    + apply exhausted_zip_left. apply (IH _ _ _ H1 E1 Hd1).
    + destruct (done r2) eqn:Hd2.
      * apply exhausted_zip_right. apply (IH _ _ _ H2 E2 Hd2).
      * discriminate.
Qed.

Lemma engine_built_after (it it' : Iterator) :
  engine_built zip_source it -> after it it' -> engine_built zip_source it'.
Proof.
  intros Hb (n & Hp). induction Hp as [it|n it fuel r it' it'' Hn Hp IH].
  - exact Hb.
  - apply IH. apply (engine_built_next _ _ _ _ Hb Hn).
Qed.

End Pulls.

(** An exhausted cursor stays exhausted: a pull on it that returns
    reports exhaustion. *)
Lemma exhausted_next (fuel : nat) :
  forall it r it',
    exhausted it -> next fuel it = Some (r, it') ->
    done r = true /\ exhausted it'.
Proof.
  induction fuel as [|fuel IH]; intros it r it' He Hn; [discriminate|].
  simpl in Hn.
  destruct He as [|results pulls Hk|source cb index Hs|source cb index Hs
                 |items itemIndex it Hlen Hit|it1 it2 H1|it1 it2 H2].
  - injection Hn as <- <-. split; [reflexivity|constructor].
  - injection Hn as <- <-. split; [apply Hk; lia|].
    constructor. intros j Hj. apply Hk. lia.
  - destruct (next fuel source) as [[r0 source']|] eqn:E; [|discriminate].
    destruct (IH _ _ _ Hs E) as [Hd0 Hs'].
    destruct (negb (strict_eq (value_of r0) VUndefined));
      injection Hn as <- <-; split; trivial; now constructor.
  - destruct (next fuel source) as [[r0 source']|] eqn:E; [|discriminate].
    destruct (IH _ _ _ Hs E) as [Hd0 Hs'].
    rewrite Hd0 in Hn. injection Hn as <- <-. split; trivial. now constructor.
  - destruct (next fuel it) as [[r0 it0]|] eqn:E; [|discriminate].
    destruct (IH _ _ _ Hit E) as [Hd0 Hit'].
    rewrite Hd0 in Hn. simpl in Hn.
    assert (Hge : (S itemIndex <? List.length items) = false)
      by (apply Nat.ltb_ge; lia).
    rewrite Hge in Hn. injection Hn as <- <-.
    split; [reflexivity|]. constructor; [lia|exact Hit'].
  - destruct (next fuel it1) as [[r1 it1']|] eqn:E1; [|discriminate].
    destruct (next fuel it2) as [[r2 it2']|] eqn:E2; [|discriminate].
    destruct (IH _ _ _ H1 E1) as [Hd1 H1'].
    rewrite Hd1 in Hn. injection Hn as <- <-.
    split; [reflexivity|]. now apply exhausted_zip_left.
  - destruct (next fuel it1) as [[r1 it1']|] eqn:E1; [|discriminate].
    destruct (next fuel it2) as [[r2 it2']|] eqn:E2; [|discriminate].
    destruct (IH _ _ _ H2 E2) as [Hd2 H2'].
    rewrite Hd2, orb_true_r in Hn. injection Hn as <- <-.
    split; [reflexivity|]. now apply exhausted_zip_right.
Qed.

Lemma exhausted_after (it it' : Iterator) :
  exhausted it -> after it it' -> exhausted it'.
Proof.
  intros He (n & Hp). induction Hp as [it|n it fuel r it' it'' Hn Hp IH].
  - exact He.
  - apply IH. apply (exhausted_next _ _ _ _ He Hn).
Qed.

Lemma any_source_next (it : Iterator) (fuel : nat) (r : IteratorResult)
    (it' : Iterator) :
  any_source it -> next fuel it = Some (r, it') -> any_source it'.
Proof. intros _ _. exact I. Qed.

Lemma always_returns_next (it : Iterator) (fuel : nat) (r : IteratorResult)
    (it' : Iterator) :
  always_returns it -> next fuel it = Some (r, it') -> always_returns it'.
Proof.
  intros Ha Hn it'' (n & Hp). apply Ha. exists (S n).
  now apply (pulled_S n it fuel r it').
Qed.

Lemma always_returns_now (it : Iterator) :
  always_returns it -> exists fuel r it', next fuel it = Some (r, it').
Proof. intros Ha. apply Ha. exists 0. constructor. Qed.

(** An exhausted cursor whose [zip]s have sources that always return
    returns from a pull. *)
Lemma exhausted_returns (it : Iterator) :
  exhausted it -> engine_built always_returns it ->
  exists fuel r it', next fuel it = Some (r, it').
Proof.
  intros He. induction He as [|results pulls Hk|source cb index Hs IH
                             |source cb index Hs IH
                             |items itemIndex it Hlen Hit IH
                             |it1 it2 H1 IH|it1 it2 H2 IH]; intros Hb.
  - now exists 1, result_done, (ArrayIterator []).
  - now exists 1, (results pulls), (ExternalIterator results (S pulls)).
  - inversion Hb as [| |? ? ? Hbs| | | |]; subst.
    destruct (IH Hbs) as (fuel & r & source' & Hn).
    exists (S fuel). simpl. rewrite Hn.
    destruct (negb (strict_eq (value_of r) VUndefined)); eauto.
  - inversion Hb as [| | |? ? ? Hbs| | |]; subst.
    destruct (IH Hbs) as (fuel & r & source' & Hn).
    destruct (exhausted_next _ _ _ _ Hs Hn) as [Hd _].
    exists (S fuel). simpl. rewrite Hn, Hd. eauto.
  - inversion Hb as [| | | |? ? ? Hbi Hbitems| |]; subst.
    destruct (IH Hbi) as (fuel & r & it' & Hn).
    destruct (exhausted_next _ _ _ _ Hit Hn) as [Hd _].
    exists (S fuel). simpl. rewrite Hn, Hd. simpl.
    assert (Hge : (S itemIndex <? List.length items) = false)
      by (apply Nat.ltb_ge; lia).
    rewrite Hge. eauto.
  - inversion Hb as [| | | | | |? ? Hb1 Hb2 Hz1 Hz2]; subst.
    destruct (IH Hb1) as (f1 & r1 & it1' & Hn1).
    destruct (always_returns_now _ Hz2) as (f2 & r2 & it2' & Hn2).
    exists (S (Nat.max f1 f2)). simpl.
    rewrite (next_mono _ (Nat.max f1 f2) _ _ Hn1) by lia.
    rewrite (next_mono _ (Nat.max f1 f2) _ _ Hn2) by lia. eauto.
  - inversion Hb as [| | | | | |? ? Hb1 Hb2 Hz1 Hz2]; subst.
    destruct (IH Hb2) as (f2 & r2 & it2' & Hn2).
    destruct (always_returns_now _ Hz1) as (f1 & r1 & it1' & Hn1).
    exists (S (Nat.max f1 f2)). simpl.
    rewrite (next_mono _ (Nat.max f1 f2) _ _ Hn1) by lia.
    rewrite (next_mono _ (Nat.max f1 f2) _ _ Hn2) by lia. eauto.
Qed.

Lemma pulled_array (n : nat) :
  forall rest it,
    pulled n (ArrayIterator rest) it -> exists rest', it = ArrayIterator rest'.
Proof.
  induction n as [|n IH]; intros rest it H.
  - inversion H; subst. now exists rest.
  - inversion H as [|? ? fuel r it' ? Hn Hp]; subst.
    destruct fuel as [|fuel]; [discriminate|]. simpl in Hn.
    destruct rest as [|x rest]; injection Hn as _ <-; now apply IH in Hp.
Qed.

Lemma array_always_returns (rest : list value) :
  always_returns (ArrayIterator rest).
Proof.
  intros it (n & Hp). destruct (pulled_array _ _ _ Hp) as (rest' & ->).
  exists 1. destruct rest' as [|x rest']; simpl; eauto.
Qed.

Lemma filter_below_two_never_returns (fuel : nat) :
  forall start index,
    2 <= start ->
    next fuel (FilterIterator (InfiniteIterator start) below_two index) = None.
Proof.
  induction fuel as [|fuel IH]; intros start index Hstart; [reflexivity|].
  simpl. destruct fuel as [|fuel]; [reflexivity|].
  cbn [next done value_of]. unfold below_two at 1, index_value at 1.
  assert (Hlt : (Z.of_nat start <? 2)%Z = false) by (apply Z.ltb_ge; lia).
  rewrite Hlt. apply IH. lia.
Qed.

(** C5, as stated, fails on
    [Seq.zip(Seq.initInfinite().filter(below_two), ['a'])]: the second
    pull reports exhaustion, because the array is exhausted, and the
    third pull never returns, because [zip] pulls its first source again
    and the filter finds no further element. *)
Lemma zip_pull_after_exhaustion_never_returns :
  engine_built any_source (iterator zip_of_filtered_infinite)
  /\ (exists r1 it1 r2 it2,
         next 3 (iterator zip_of_filtered_infinite) = Some (r1, it1)
         /\ next 3 it1 = Some (r2, it2) /\ done r2 = true
         /\ forall fuel, next fuel it2 = None)
  /\ ~ exhaustion_reported_ever_after zip_of_filtered_infinite.
Proof.
  assert (Hnever : forall fuel,
             next fuel (ZipIterator
                          (FilterIterator (InfiniteIterator 2) below_two 2)
                          (ArrayIterator [])) = None).
  { intros [|fuel]; [reflexivity|]. simpl.
    now rewrite (filter_below_two_never_returns fuel 2 2) by lia. }
  split; [|split].
  - repeat constructor.
  - eexists _, _, _, _. split; [reflexivity|].
    split; [reflexivity|]. split; [reflexivity|]. exact Hnever.
  - intros Hever.
    destruct (Hever
                (ZipIterator (FilterIterator (InfiniteIterator 1) below_two 1)
                   (ArrayIterator []))
                3 result_done
                (ZipIterator (FilterIterator (InfiniteIterator 2) below_two 2)
                   (ArrayIterator []))
                (ZipIterator (FilterIterator (InfiniteIterator 2) below_two 2)
                   (ArrayIterator [])))
      as (fuel1 & r1 & it2 & Hn & _).
    + exists 1. eapply (pulled_S 0 _ 3); [reflexivity|constructor].
    + reflexivity.
    + reflexivity.
    + exists 0. constructor.
    + rewrite Hnever in Hn. discriminate.
Qed.

(** C5. For a sequence built by [of], [from], [empty], [map], [filter],
    [concat], [zip], [init] and [initInfinite] over caller cursors that
    keep reporting exhaustion: once a pull on its cursor has reported
    exhaustion, every later pull on that cursor that returns reports
    exhaustion; and every later pull does return, and reports
    exhaustion, when every pull on the two sources of each [zip] in the
    cursor returns. *)
Theorem exhaustion_is_final (this : Seq) :
  engine_built any_source (iterator this) ->
  (forall it fuel r it' it1,
      after (iterator this) it ->
      next fuel it = Some (r, it') -> done r = true ->
      after it' it1 ->
      forall fuel1 r1 it2, next fuel1 it1 = Some (r1, it2) -> done r1 = true)
  /\ (engine_built always_returns (iterator this) ->
      exhaustion_reported_ever_after this).
Proof.
  intros Hb. split.
  - intros it fuel r it' it1 Ha Hn Hd Ha1 fuel1 r1 it2 Hn1.
    assert (Hbi := engine_built_after any_source any_source_next _ _ Hb Ha).
    assert (He := exhaustion_report any_source any_source_next _ _ _ _ Hbi Hn Hd).
    assert (He1 := exhausted_after _ _ He Ha1).
    apply (exhausted_next _ _ _ _ He1 Hn1).
  - intros Hbr it fuel r it' it1 Ha Hn Hd Ha1.
    assert (Hbi := engine_built_after always_returns always_returns_next _ _ Hbr Ha).
    assert (He := exhaustion_report always_returns always_returns_next
                    _ _ _ _ Hbi Hn Hd).
    assert (He1 := exhausted_after _ _ He Ha1).
    assert (Hb' := engine_built_next always_returns always_returns_next
                     _ _ _ _ Hbi Hn).
    assert (Hb1 := engine_built_after always_returns always_returns_next
                     _ _ Hb' Ha1).
    destruct (exhausted_returns _ He1 Hb1) as (fuel1 & r1 & it2 & Hn1).
    exists fuel1, r1, it2. split; [exact Hn1|].
    apply (exhausted_next _ _ _ _ He1 Hn1).
Qed.

Lemma exhaustion_is_final_witness :
  exhaustion_reported_ever_after
    (Seq_zip (ArrayIterable [VNum (Num 1); VNum (Num 2)])
             (ArrayIterable [VStr "a"])).
Proof.
  apply (exhaustion_is_final
           (Seq_zip (ArrayIterable [VNum (Num 1); VNum (Num 2)])
                    (ArrayIterable [VStr "a"]))).
  - simpl. repeat constructor.
  - simpl. constructor; try constructor; apply array_always_returns.
Defined.

(** Spreading a sequence leaves its cursor exhausted, so spreading it
    again gives no element. *)
Lemma spread_leaves_exhausted (fuel : nat) :
  forall this xs this',
    engine_built any_source (iterator this) ->
    spread fuel this = Some (xs, this') ->
    exhausted (iterator this') /\ engine_built any_source (iterator this').
Proof.
  induction fuel as [|fuel IH]; intros this xs this' Hb Hs; [discriminate|].
  simpl in Hs. destruct this as [it]. rewrite Seq_next_new in Hs.
  destruct (next fuel it) as [[r it']|] eqn:E; [|discriminate].
  assert (Hb' := engine_built_next any_source any_source_next _ _ _ _ Hb E).
  destruct (done r) eqn:Hd.
  - injection Hs as _ <-. split; [|exact Hb'].
    apply (exhaustion_report any_source any_source_next _ _ _ _ Hb E Hd).
  - destruct (spread fuel (new_Seq it')) as [[ys this'']|] eqn:E'; [|discriminate].
    injection Hs as _ <-. apply (IH (new_Seq it') _ _ Hb' E').
Qed.

Lemma spread_again_is_empty (fuel fuel' : nat) (this this' this'' : Seq)
    (xs ys : list value) :
  engine_built any_source (iterator this) ->
  spread fuel this = Some (xs, this') ->
  spread fuel' this' = Some (ys, this'') ->
  ys = [].
Proof.
  intros Hb Hs Hs'.
  destruct (spread_leaves_exhausted _ _ _ _ Hb Hs) as [He _].
  destruct fuel' as [|fuel']; [discriminate|]. simpl in Hs'.
  destruct this' as [it']. rewrite Seq_next_new in Hs'.
  destruct (next fuel' it') as [[r it'']|] eqn:E; [|discriminate].
  destruct (exhausted_next _ _ _ _ He E) as [Hd _].
  rewrite Hd in Hs'. now injection Hs' as <- _.
Qed.

(** * Further properties of the sequence operations *)

(** ** Partial consumption *)

Lemma yields_app (it it' it'' : Iterator) (xs ys : list value) :
  yields it xs it' -> yields it' ys it'' -> yields it (xs ++ ys) it''.
Proof.
  intros H1 H2. induction H1 as [it|it fuel r it1 xs it2 Hn Hd Hy IH].
  - exact H2.
  - simpl. apply (yields_cons it fuel r it1); auto.
Qed.

Lemma yields_spread (it it1 it2 : Iterator) (xs : list value) :
  yields it xs it1 -> ends it1 it2 ->
  exists fuel, spread fuel (new_Seq it) = Some (xs, new_Seq it2).
Proof.
  intros Hy (fuel & r & Hn & Hd).
  induction Hy as [it|it f0 r0 it' xs it'' Hn0 Hd0 Hy IH].
  - exists (S fuel). simpl. rewrite Seq_next_new, Hn. now rewrite Hd.
  - destruct (IH Hn) as (f1 & Hs).
    exists (S (Nat.max f0 f1)). simpl. rewrite Seq_next_new.
    rewrite (next_mono _ (Nat.max f0 f1) _ _ Hn0) by lia.
    rewrite Hd0.
    now rewrite (spread_mono _ (Nat.max f0 f1) _ _ Hs) by lia.
Qed.

Lemma spread_inv (fuel : nat) :
  forall it xs this',
    spread fuel (new_Seq it) = Some (xs, this') ->
    exists it1 it2, yields it xs it1 /\ ends it1 it2 /\ this' = new_Seq it2.
Proof.
  induction fuel as [|fuel IH]; intros it xs this' H; [discriminate|].
  simpl in H. rewrite Seq_next_new in H.
  destruct (next fuel it) as [[r it']|] eqn:E; [|discriminate].
  destruct (done r) eqn:Hd.
  - injection H as <- <-. exists it, it'. repeat split.
    + constructor.
    + now exists fuel, r.
  - destruct (spread fuel (new_Seq it')) as [[ys s]|] eqn:E'; [|discriminate].
    injection H as <- <-.
    destruct (IH _ _ _ E') as (it1 & it2 & Hy & He & ->).
    exists it1, it2. repeat split; trivial.
    now apply (yields_cons it fuel r it').
Qed.

Lemma Drains_yields (it : Iterator) (xs : list value) :
  Drains (new_Seq it) xs <-> exists it1 it2, yields it xs it1 /\ ends it1 it2.
Proof.
  split.
  - intros (fuel & this' & H).
    destruct (spread_inv _ _ _ _ H) as (it1 & it2 & Hy & He & _). eauto.
  - intros (it1 & it2 & Hy & He).
    destruct (yields_spread _ _ _ _ Hy He) as (fuel & H).
    now exists fuel, (new_Seq it2).
Qed.

Lemma yields_Drains (it it' : Iterator) (xs ys : list value) :
  yields it xs it' -> Drains (new_Seq it') ys -> Drains (new_Seq it) (xs ++ ys).
Proof.
  intros Hy H. apply Drains_yields in H. destruct H as (it1 & it2 & Hy' & He).
  apply Drains_yields. exists it1, it2. split; [|exact He].
  now apply (yields_app it it').
Qed.

Lemma Drains_split (xs : list value) :
  forall it ys,
    Drains (new_Seq it) (xs ++ ys) ->
    exists it', yields it xs it' /\ Drains (new_Seq it') ys.
Proof.
  induction xs as [|x xs IH]; intros it ys H.
  - exists it. split; [constructor|exact H].
  - simpl in H.
    destruct (Drains_cons_cursor _ _ _ H) as (fuel & r & it1 & Hn & Hd & Hv & Hrest).
    destruct (IH _ _ Hrest) as (it' & Hy & Hys).
    exists it'. split; [|exact Hys]. subst x.
    now apply (yields_cons it fuel r it1).
Qed.

Lemma yields_length_pulled (it it' : Iterator) (xs : list value) :
  yields it xs it' -> pulled (List.length xs) it it'.
Proof.
  intros H. induction H as [it|it fuel r it1 xs it2 Hn Hd Hy IH].
  - constructor.
  - simpl. now apply (pulled_S _ it fuel r it1).
Qed.

(** ** forEach *)

Lemma forEach_loop_mono (fuel : nat) :
  forall fuel' index it res,
    forEach_loop fuel index it = Some res -> fuel <= fuel' ->
    forEach_loop fuel' index it = Some res.
Proof.
  induction fuel as [|fuel IH]; intros fuel' index it res H Hle; [discriminate|].
  destruct fuel' as [|fuel']; [lia|].
  assert (Hle' : fuel <= fuel') by lia.
  simpl in H |- *.
  destruct (next fuel it) as [[r it']|] eqn:E; [|discriminate].
  rewrite (next_mono _ _ _ _ E Hle').
  destruct (done r); [exact H|].
  destruct (forEach_loop fuel (S index) it') as [[calls it'']|] eqn:E';
    [|discriminate].
  now rewrite (IH _ _ _ _ E' Hle').
Qed.

Lemma forEach_loop_calls (xs : list value) :
  forall it index,
    Drains (new_Seq it) xs ->
    exists fuel,
      outcome (forEach_loop fuel index it)
      = Some (List.map (fun ix => (snd ix, index_value (fst ix)))
                (indexed index xs)).
Proof.
  induction xs as [|x xs IH]; intros it index H.
  - destruct (Drains_nil_cursor _ H) as (fuel & r & it' & Hn & Hd).
    exists (S fuel). simpl. now rewrite Hn, Hd.
  - destruct (Drains_cons_cursor _ _ _ H) as (fuel & r & it' & Hn & Hd & Hv & Hrest).
    destruct (IH it' (S index) Hrest) as (fuel' & Hloop).
    exists (S (Nat.max fuel fuel')). simpl.
    rewrite (next_mono _ (Nat.max fuel fuel') _ _ Hn) by lia.
    rewrite Hd.
    destruct (forEach_loop fuel' (S index) it') as [[calls it'']|] eqn:E;
      [|discriminate].
    rewrite (forEach_loop_mono _ (Nat.max fuel fuel') _ _ _ E) by lia.
    simpl in Hloop |- *. injection Hloop as ->. now rewrite Hv.
Qed.

(** X1. On a finite sequence with elements [xs], [forEach] calls its
    callback once per element, in order, with the element and its
    position counted from 0; an element that is [undefined] is passed
    like any other. *)
Theorem forEach_calls_each_element_in_order (this : Seq) (xs : list value) :
  Drains this xs ->
  exists fuel,
    outcome (Seq_forEach fuel this)
    = Some (List.map (fun ix => (snd ix, index_value (fst ix))) (indexed 0 xs)).
Proof.
  intros H. destruct this as [it]. now apply forEach_loop_calls.
Qed.

Lemma forEach_calls_each_element_in_order_witness :
  exists fuel,
    outcome (Seq_forEach fuel (Seq_of [VStr "a"; VUndefined; VStr "c"]))
    = Some [(VStr "a", index_value 0); (VUndefined, index_value 1);
            (VStr "c", index_value 2)].
Proof.
  apply (forEach_calls_each_element_in_order
           (Seq_of [VStr "a"; VUndefined; VStr "c"])
           [VStr "a"; VUndefined; VStr "c"]).
  exists 5, (new_Seq (ArrayIterator [])). reflexivity.
Defined.

(** ** map, entries and keys on a finite sequence *)

Lemma map_from_length (f : SeqCallback value) (xs : list value) :
  forall index, List.length (map_from f index xs) = List.length xs.
Proof.
  induction xs as [|x xs IH]; intros index; [reflexivity|].
  cbn [map_from]. destruct (strict_eq x VUndefined); simpl; now rewrite IH.
Qed.

(** X2. On a finite sequence with elements [xs], [map(f)] is a finite
    sequence of as many elements: [f] applied to the element and to the
    number of elements before it that are not [undefined], and [false]
    for an element that is [undefined].  When no element is [undefined]
    this is [f] applied to each element and its position. *)
Theorem map_on_finite_sequence (f : SeqCallback value) (this : Seq)
    (xs : list value) :
  Drains this xs ->
  Drains (Seq_map f this) (map_from f 0 xs)
  /\ List.length (map_from f 0 xs) = List.length xs
  /\ (Forall defined xs ->
      map_from f 0 xs = List.map (at_position f) (indexed 0 xs)).
Proof.
  intros H. split; [|split].
  - now apply map_of_finite.
  - apply map_from_length.
  - apply map_from_defined.
Qed.

Lemma map_on_finite_sequence_witness :
  Drains (Seq_map (fun item index => VArr [item; index])
            (Seq_of [VStr "a"; VUndefined; VStr "c"]))
         [VArr [VStr "a"; index_value 0]; VBool false;
          VArr [VStr "c"; index_value 1]].
Proof.
  apply (map_on_finite_sequence (fun item index => VArr [item; index])
           (Seq_of [VStr "a"; VUndefined; VStr "c"])
           [VStr "a"; VUndefined; VStr "c"]).
  exists 5, (new_Seq (ArrayIterator [])). reflexivity.
Defined.

Lemma keys_of_indexed (xs : list value) :
  forall start,
    List.map (at_position (fun _ index => index)) (indexed start xs)
    = numbers start (List.length xs).
Proof.
  unfold indexed, numbers.
  induction xs as [|x xs IH]; intros start; [reflexivity|].
  simpl. f_equal. apply IH.
Qed.

(** X3. On a finite sequence with elements [xs], none of them
    [undefined], [entries()] is the sequence of the pairs
    [[position, element]] and [keys()] the sequence of the positions
    [0 .. length - 1]. *)
Theorem entries_and_keys_of_defined_elements (this : Seq) (xs : list value) :
  Drains this xs -> Forall defined xs ->
  Drains (Seq_entries this) (List.map entry_at (indexed 0 xs))
  /\ Drains (Seq_keys this) (numbers 0 (List.length xs)).
Proof.
  intros H Hdef. split.
  - apply (map_of_defined_elements entry this xs H Hdef).
  - rewrite <- keys_of_indexed.
    apply (map_of_defined_elements (fun _ index => index) this xs H Hdef).
Qed.

Lemma entries_and_keys_of_defined_elements_witness :
  Drains (Seq_entries (Seq_of [VStr "a"; VStr "b"]))
         [VArr [index_value 0; VStr "a"]; VArr [index_value 1; VStr "b"]]
  /\ Drains (Seq_keys (Seq_of [VStr "a"; VStr "b"]))
            [index_value 0; index_value 1].
Proof.
  apply (entries_and_keys_of_defined_elements
           (Seq_of [VStr "a"; VStr "b"]) [VStr "a"; VStr "b"]).
  - exists 4, (new_Seq (ArrayIterator [])). reflexivity.
  - repeat constructor.
Defined.

(** ** find, findIndex, every and some *)

Lemma find_loop_mono (p : SeqCallback bool) (fuel : nat) :
  forall fuel' it res,
    find_loop fuel p it = Some res -> fuel <= fuel' ->
    find_loop fuel' p it = Some res.
Proof.
  induction fuel as [|fuel IH]; intros fuel' it res H Hle; [discriminate|].
  destruct fuel' as [|fuel']; [lia|].
  assert (Hle' : fuel <= fuel') by lia.
  simpl in H |- *.
  destruct (Seq_next fuel it) as [[r it']|] eqn:E; [|discriminate].
  rewrite (Seq_next_mono _ _ _ _ E Hle').
  destruct (done r); [exact H|].
  destruct (destructure_pair (value_of r)) as [[index item0]|e]; [|exact H].
  destruct (p item0 index); [exact H|].
  now apply IH.
Qed.

Lemma findIndex_loop_mono (p : SeqCallback bool) (fuel : nat) :
  forall fuel' it res,
    findIndex_loop fuel p it = Some res -> fuel <= fuel' ->
    findIndex_loop fuel' p it = Some res.
Proof.
  induction fuel as [|fuel IH]; intros fuel' it res H Hle; [discriminate|].
  destruct fuel' as [|fuel']; [lia|].
  assert (Hle' : fuel <= fuel') by lia.
  simpl in H |- *.
  destruct (Seq_next fuel it) as [[r it']|] eqn:E; [|discriminate].
  rewrite (Seq_next_mono _ _ _ _ E Hle').
  destruct (done r); [exact H|].
  destruct (destructure_pair (value_of r)) as [[index item0]|e]; [|exact H].
  destruct (p item0 index); [exact H|].
  now apply IH.
Qed.

Lemma yields_cons_inv (it it'' : Iterator) (x : value) (xs : list value) :
  yields it (x :: xs) it'' ->
  exists fuel r it',
    next fuel it = Some (r, it') /\ done r = false /\ value_of r = x
    /\ yields it' xs it''.
Proof.
  intros H. inversion H as [|? fuel r it' ? ? Hn Hd Hrest]; subst.
  now exists fuel, r, it'.
Qed.

(** The traversal shared by [find] and [findIndex], up to the first
    element that satisfies the predicate. *)
Lemma find_loops_hit (p : SeqCallback bool) (pre : list value) :
  forall source start x source',
    yields source (pre ++ [x]) source' ->
    Forall defined (pre ++ [x]) ->
    existsb (at_position p) (indexed start pre) = false ->
    p x (index_value (start + List.length pre)) = true ->
    exists fuel,
      find_loop fuel p (new_Seq (MapIterator source entry start))
      = Some (Normal x,
              new_Seq (MapIterator source' entry (S (start + List.length pre))))
      /\ findIndex_loop fuel p (new_Seq (MapIterator source entry start))
         = Some (Normal (index_value (start + List.length pre)),
                 new_Seq (MapIterator source' entry (S (start + List.length pre)))).
Proof.
  induction pre as [|y pre IH]; intros source start x source' Hy Hdef Hpre Hx.
  - simpl in Hy.
    inversion Hy as [|? fuel r it' ? ? Hn Hd Hrest]; subst.
    inversion Hrest; subst.
    inversion Hdef as [|? ? Hr _]; subst.
    simpl in Hx. rewrite Nat.add_0_r in *.
    exists (S (S fuel)). cbn [find_loop findIndex_loop].
    rewrite (entries_pull_element _ _ _ _ start Hn Hd Hr).
    cbn [done value_of destructure_pair nth]. now rewrite Hx.
  - simpl in Hy.
    inversion Hy as [|? fuel r it' ? ? Hn Hd Hrest]; subst.
    inversion Hdef as [|? ? Hr Hdef']; subst.
    unfold indexed in Hpre. cbn [List.length seq combine existsb] in Hpre.
    fold (indexed (S start) pre) in Hpre.
    apply orb_false_iff in Hpre. destruct Hpre as [Hp Hpre].
    unfold at_position in Hp. cbn [fst snd] in Hp.
    cbn [List.length] in Hx |- *.
    replace (start + S (List.length pre)) with (S start + List.length pre)
      in * by lia.
    destruct (IH it' (S start) x source' Hrest Hdef' Hpre Hx)
      as (fuel' & Hfind & Hindex).
    exists (S (Nat.max (S fuel) fuel')). cbn [find_loop findIndex_loop].
    rewrite (Seq_next_mono (S fuel) (Nat.max (S fuel) fuel') _ _
               (entries_pull_element _ _ _ _ start Hn Hd Hr)) by lia.
    cbn [done value_of destructure_pair nth]. rewrite Hp. split.
    + apply (find_loop_mono _ _ _ _ _ Hfind). lia.
    + apply (findIndex_loop_mono _ _ _ _ _ Hindex). lia.
Qed.

(** The same traversal when no element satisfies the predicate. *)
Lemma find_loops_miss (p : SeqCallback bool) (xs : list value) :
  forall source start,
    Drains (new_Seq source) xs ->
    Forall defined xs ->
    existsb (at_position p) (indexed start xs) = false ->
    exists fuel,
      outcome (find_loop fuel p (new_Seq (MapIterator source entry start)))
      = Some (Normal VUndefined)
      /\ outcome (findIndex_loop fuel p (new_Seq (MapIterator source entry start)))
         = Some (Normal (VNum (Num (-1)))).
Proof.
  induction xs as [|y xs IH]; intros source start H Hdef Hpre.
  - destruct (Drains_nil_cursor _ H) as (fuel & r & source' & Hs & Hd).
    destruct (entries_pull_exhausted _ _ _ _ start Hs Hd)
      as (r' & s' & Hp & Hd' & _).
    exists (S (S fuel)). cbn [find_loop findIndex_loop]. now rewrite Hp, Hd'.
  - destruct (Drains_cons_cursor _ _ _ H) as (fuel & r & it' & Hn & Hd & Hv & Hrest).
    subst y. inversion Hdef as [|? ? Hr Hdef']; subst.
    unfold indexed in Hpre. cbn [List.length seq combine existsb] in Hpre.
    fold (indexed (S start) xs) in Hpre.
    apply orb_false_iff in Hpre. destruct Hpre as [Hp Hpre].
    unfold at_position in Hp. cbn [fst snd] in Hp.
    destruct (IH it' (S start) Hrest Hdef' Hpre) as (fuel' & Hfind & Hindex).
    exists (S (Nat.max (S fuel) fuel')). cbn [find_loop findIndex_loop].
    rewrite (Seq_next_mono (S fuel) (Nat.max (S fuel) fuel') _ _
               (entries_pull_element _ _ _ _ start Hn Hd Hr)) by lia.
    cbn [done value_of destructure_pair nth]. rewrite Hp. split.
    + destruct (find_loop fuel' p _) as [res|] eqn:E; [|discriminate].
      now rewrite (find_loop_mono _ _ (Nat.max (S fuel) fuel') _ _ E) by lia.
    + destruct (findIndex_loop fuel' p _) as [res|] eqn:E; [|discriminate].
      now rewrite (findIndex_loop_mono _ _ (Nat.max (S fuel) fuel') _ _ E) by lia.
Qed.

(** The traversal stopped by an element that is [undefined]: the cursor
    of [entries()] produces [false], which cannot be destructured. *)
Lemma find_loops_undefined (p : SeqCallback bool) (pre : list value) :
  forall source start source',
    yields source (pre ++ [VUndefined]) source' ->
    Forall defined pre ->
    existsb (at_position p) (indexed start pre) = false ->
    exists fuel,
      outcome (find_loop fuel p (new_Seq (MapIterator source entry start)))
      = Some (Throw (NotIterable (VBool false)))
      /\ outcome (findIndex_loop fuel p (new_Seq (MapIterator source entry start)))
         = Some (Throw (NotIterable (VBool false))).
Proof.
  induction pre as [|y pre IH]; intros source start source' Hy Hdef Hpre.
  - simpl in Hy.
    destruct (yields_cons_inv _ _ _ _ Hy) as (fuel & r & it' & Hn & Hd & Hv & _).
    exists (S (S fuel)). cbn [find_loop findIndex_loop].
    rewrite (entries_pull_undefined _ _ _ _ start Hn Hv), Hd.
    split; reflexivity.
  - simpl in Hy.
    inversion Hy as [|? fuel r it' ? ? Hn Hd Hrest]; subst.
    inversion Hdef as [|? ? Hr Hdef']; subst.
    unfold indexed in Hpre. cbn [List.length seq combine existsb] in Hpre.
    fold (indexed (S start) pre) in Hpre.
    apply orb_false_iff in Hpre. destruct Hpre as [Hp Hpre].
    unfold at_position in Hp. cbn [fst snd] in Hp.
    destruct (IH it' (S start) source' Hrest Hdef' Hpre) as (fuel' & Hfind & Hindex).
    exists (S (Nat.max (S fuel) fuel')). cbn [find_loop findIndex_loop].
    rewrite (Seq_next_mono (S fuel) (Nat.max (S fuel) fuel') _ _
               (entries_pull_element _ _ _ _ start Hn Hd Hr)) by lia.
    cbn [done value_of destructure_pair nth]. rewrite Hp. split.
    + destruct (find_loop fuel' p _) as [res|] eqn:E; [|discriminate].
      now rewrite (find_loop_mono _ _ (Nat.max (S fuel) fuel') _ _ E) by lia.
    + destruct (findIndex_loop fuel' p _) as [res|] eqn:E; [|discriminate].
      now rewrite (findIndex_loop_mono _ _ (Nat.max (S fuel) fuel') _ _ E) by lia.
Qed.

(** X4. When the cursor of a sequence produces the elements [pre] and
    then [x], none of them [undefined], with the predicate false on
    [pre] and true on [x], [find] returns [x]; the sequence may go on
    after [x], even without end.  The call leaves the cursor of the
    sequence where it stands after the pull that produced [x]: what
    comes after [x] is not pulled. *)
Theorem find_stops_at_first_match (p : SeqCallback bool) (this : Seq)
    (pre : list value) (x : value) (source' : Iterator) :
  yields (iterator this) (pre ++ [x]) source' ->
  Forall defined (pre ++ [x]) ->
  existsb (at_position p) (indexed 0 pre) = false ->
  p x (index_value (List.length pre)) = true ->
  exists fuel,
    Seq_find fuel p this
    = Some (Normal x, new_Seq (MapIterator source' entry (S (List.length pre)))).
Proof.
  intros Hy Hdef Hpre Hx. destruct this as [source].
  destruct (find_loops_hit p pre source 0 x source' Hy Hdef Hpre Hx)
    as (fuel & Hfind & _).
  now exists fuel.
Qed.

Lemma find_stops_at_first_match_witness :
  exists fuel,
    Seq_find fuel (fun item _ => strict_eq item (VNum (Num 2)))
      (Seq_initInfinite None)
    = Some (Normal (VNum (Num 2)),
            new_Seq (MapIterator (InfiniteIterator 3) entry 3)).
Proof.
  apply (find_stops_at_first_match
           (fun item _ => strict_eq item (VNum (Num 2)))
           (Seq_initInfinite None)
           [VNum (Num 0); VNum (Num 1)] (VNum (Num 2)) (InfiniteIterator 3)).
  - simpl.
    apply (yields_cons _ 1 (mkResult false (index_value 0)) (InfiniteIterator 1));
      try reflexivity.
    apply (yields_cons _ 1 (mkResult false (index_value 1)) (InfiniteIterator 2));
      try reflexivity.
    apply (yields_cons _ 1 (mkResult false (index_value 2)) (InfiniteIterator 3));
      try reflexivity.
    constructor.
  - repeat constructor.
  - reflexivity.
  - reflexivity.
Defined.

(** X5. Under the same conditions [findIndex] returns the position of
    [x], which is the number of elements before it, and leaves the
    cursor of the sequence after the pull that produced [x]. *)
Theorem findIndex_stops_at_first_match (p : SeqCallback bool) (this : Seq)
    (pre : list value) (x : value) (source' : Iterator) :
  yields (iterator this) (pre ++ [x]) source' ->
  Forall defined (pre ++ [x]) ->
  existsb (at_position p) (indexed 0 pre) = false ->
  p x (index_value (List.length pre)) = true ->
  exists fuel,
    Seq_findIndex fuel p this
    = Some (Normal (index_value (List.length pre)),
            new_Seq (MapIterator source' entry (S (List.length pre)))).
Proof.
  intros Hy Hdef Hpre Hx. destruct this as [source].
  destruct (find_loops_hit p pre source 0 x source' Hy Hdef Hpre Hx)
    as (fuel & _ & Hindex).
  now exists fuel.
Qed.

Lemma findIndex_stops_at_first_match_witness :
  exists fuel,
    Seq_findIndex fuel (fun item _ => strict_eq item (VStr "b"))
      (Seq_of [VStr "a"; VStr "b"; VStr "c"])
    = Some (Normal (index_value 1),
            new_Seq (MapIterator (ArrayIterator [VStr "c"]) entry 2)).
Proof.
  apply (findIndex_stops_at_first_match
           (fun item _ => strict_eq item (VStr "b"))
           (Seq_of [VStr "a"; VStr "b"; VStr "c"])
           [VStr "a"] (VStr "b") (ArrayIterator [VStr "c"])).
  - simpl.
    apply (yields_cons _ 1 (mkResult false (VStr "a"))
             (ArrayIterator [VStr "b"; VStr "c"])); try reflexivity.
    apply (yields_cons _ 1 (mkResult false (VStr "b"))
             (ArrayIterator [VStr "c"])); try reflexivity.
    constructor.
  - repeat constructor.
  - reflexivity.
  - reflexivity.
Defined.

(** X6. On a finite sequence none of whose elements is [undefined] or
    satisfies the predicate, [find] returns [undefined] and [findIndex]
    returns [-1]; in particular on an empty sequence. *)
Theorem find_and_findIndex_without_match (p : SeqCallback bool) (this : Seq)
    (xs : list value) :
  Drains this xs -> Forall defined xs ->
  existsb (at_position p) (indexed 0 xs) = false ->
  exists fuel,
    outcome (Seq_find fuel p this) = Some (Normal VUndefined)
    /\ outcome (Seq_findIndex fuel p this) = Some (Normal (VNum (Num (-1)))).
Proof.
  intros H Hdef Hnone. destruct this as [source].
  now apply (find_loops_miss p xs source 0).
Qed.

Lemma find_and_findIndex_without_match_witness :
  exists fuel,
    outcome (Seq_find fuel (fun item _ => strict_eq item (VStr "z"))
               (Seq_of [VStr "a"; VStr "b"]))
    = Some (Normal VUndefined)
    /\ outcome (Seq_findIndex fuel (fun item _ => strict_eq item (VStr "z"))
                  (Seq_of [VStr "a"; VStr "b"]))
       = Some (Normal (VNum (Num (-1)))).
Proof.
  apply (find_and_findIndex_without_match
           (fun item _ => strict_eq item (VStr "z"))
           (Seq_of [VStr "a"; VStr "b"]) [VStr "a"; VStr "b"]).
  - exists 4, (new_Seq (ArrayIterator [])). reflexivity.
  - repeat constructor.
  - reflexivity.
Defined.

(** X7. When the cursor of a sequence produces the elements [pre], none
    of them [undefined] or satisfying the predicate, and then an element
    that is [undefined], the calls [find], [findIndex] and [some] throw
    the TypeError raised by destructuring [false]. *)
Theorem traversals_throw_at_undefined_element (p : SeqCallback bool)
    (this : Seq) (pre : list value) (source' : Iterator) :
  yields (iterator this) (pre ++ [VUndefined]) source' ->
  Forall defined pre ->
  existsb (at_position p) (indexed 0 pre) = false ->
  exists fuel,
    outcome (Seq_find fuel p this) = Some (Throw (NotIterable (VBool false)))
    /\ outcome (Seq_findIndex fuel p this)
       = Some (Throw (NotIterable (VBool false)))
    /\ outcome (Seq_some fuel p this)
       = Some (Throw (NotIterable (VBool false))).
Proof.
  intros Hy Hdef Hpre. destruct this as [source].
  destruct (find_loops_undefined p pre source 0 source' Hy Hdef Hpre)
    as (fuel & Hfind & Hindex).
  exists fuel. repeat split; trivial.
  unfold Seq_some, Seq_find in *. cbn [Seq_entries Seq_map Seq_new
    symbol_iterator iterator] in *.
  destruct (find_loop fuel p _) as [[[found|e] s]|]; try discriminate.
  simpl in Hfind |- *. congruence.
Qed.

Lemma traversals_throw_at_undefined_element_witness :
  exists fuel,
    outcome (Seq_find fuel (fun item _ => strict_eq item (VStr "c"))
               (Seq_of [VStr "a"; VUndefined; VStr "c"]))
    = Some (Throw (NotIterable (VBool false)))
    /\ outcome (Seq_findIndex fuel (fun item _ => strict_eq item (VStr "c"))
                  (Seq_of [VStr "a"; VUndefined; VStr "c"]))
       = Some (Throw (NotIterable (VBool false)))
    /\ outcome (Seq_some fuel (fun item _ => strict_eq item (VStr "c"))
                  (Seq_of [VStr "a"; VUndefined; VStr "c"]))
       = Some (Throw (NotIterable (VBool false))).
Proof.
  apply (traversals_throw_at_undefined_element
           (fun item _ => strict_eq item (VStr "c"))
           (Seq_of [VStr "a"; VUndefined; VStr "c"])
           [VStr "a"] (ArrayIterator [VStr "c"])).
  - simpl.
    apply (yields_cons _ 1 (mkResult false (VStr "a"))
             (ArrayIterator [VUndefined; VStr "c"])); try reflexivity.
    apply (yields_cons _ 1 (mkResult false VUndefined)
             (ArrayIterator [VStr "c"])); try reflexivity.
    constructor.
  - repeat constructor.
  - reflexivity.
Defined.

Lemma Seq_entries_new (source : Iterator) :
  Seq_entries (new_Seq source) = new_Seq (MapIterator source entry 0).
Proof. reflexivity. Qed.

Lemma first_match_split {A : Type} (f : A -> bool) (l : list A) :
  existsb f l = true ->
  exists pre a rest,
    l = pre ++ a :: rest /\ existsb f pre = false /\ f a = true.
Proof.
  induction l as [|b l IH]; [discriminate|]. simpl. intros H.
  destruct (f b) eqn:Hb.
  - now exists [], b, l.
  - destruct (IH H) as (pre & a & rest & -> & Hpre & Ha).
    exists (b :: pre), a, rest. repeat split; trivial. simpl. now rewrite Hb.
Qed.

Lemma indexed_app (xs ys : list value) :
  forall start,
    indexed start (xs ++ ys)
    = indexed start xs ++ indexed (start + List.length xs) ys.
Proof.
  unfold indexed. induction xs as [|x xs IH]; intros start; simpl.
  - now rewrite Nat.add_0_r.
  - f_equal. rewrite IH. do 3 f_equal. lia.
Qed.

Lemma indexed_split (xs : list value) :
  forall start pre ix rest,
    indexed start xs = pre ++ ix :: rest ->
    exists xpre xrest,
      xs = xpre ++ snd ix :: xrest
      /\ pre = indexed start xpre
      /\ fst ix = start + List.length xpre.
Proof.
  unfold indexed.
  induction xs as [|x xs IH]; intros start pre ix rest H.
  - destruct pre; discriminate.
  - simpl in H. destruct pre as [|a pre].
    + injection H as <- _. exists [], xs. repeat split. simpl. lia.
    + injection H as <- H.
      destruct (IH _ _ _ _ H) as (xpre & xrest & -> & -> & Hfst).
      exists (x :: xpre), xrest. repeat split. simpl. lia.
Qed.

Lemma existsb_inverse (p : SeqCallback bool) (l : list (nat * value)) :
  existsb (at_position (inverse p)) l = negb (forallb (at_position p) l).
Proof.
  induction l as [|ix l IH]; [reflexivity|].
  simpl. rewrite IH. unfold at_position at 1, inverse.
  fold (at_position p ix). now destruct (at_position p ix).
Qed.

(** The value of [some] on a finite sequence. *)
Lemma some_on_finite (p : SeqCallback bool) (this : Seq) (xs : list value) :
  Drains this xs -> Forall defined xs ->
  exists fuel,
    outcome (Seq_some fuel p this)
    = Some (Normal (existsb (at_position p) (indexed 0 xs))).
Proof.
  intros H Hdef. destruct this as [source].
  destruct (existsb (at_position p) (indexed 0 xs)) eqn:Hex.
  - destruct (first_match_split _ _ Hex) as (pre & ix & rest & Hsplit & Hpre & Hix).
    destruct (indexed_split _ _ _ _ _ Hsplit) as (xpre & xrest & -> & -> & Hfst).
    replace (xpre ++ snd ix :: xrest) with ((xpre ++ [snd ix]) ++ xrest) in H, Hdef
      by now rewrite <- app_assoc.
    destruct (Drains_split _ _ _ H) as (source' & Hy & _).
    apply Forall_app in Hdef. destruct Hdef as [Hdef _].
    assert (Hx : p (snd ix) (index_value (0 + List.length xpre)) = true).
    { unfold at_position in Hix. now rewrite Hfst in Hix. }
    destruct (find_loops_hit p xpre source 0 (snd ix) source' Hy Hdef Hpre Hx)
      as (fuel & Hfind & _).
    exists fuel. unfold Seq_some, Seq_find.
    rewrite Seq_entries_new, Hfind. simpl.
    assert (Hd : defined (snd ix)).
    { apply Forall_app in Hdef. destruct Hdef as [_ Hd].
      now inversion Hd. }
    now rewrite Hd.
  - destruct (find_loops_miss p xs source 0 H Hdef Hex) as (fuel & Hfind & _).
    exists fuel. unfold Seq_some, Seq_find. rewrite Seq_entries_new.
    destruct (find_loop fuel p _) as [[[found|e] s]|]; try discriminate.
    simpl in Hfind |- *. injection Hfind as ->. reflexivity.
Qed.

(** X8. On a finite sequence none of whose elements is [undefined],
    [some(p)] returns whether an element satisfies [p] and [every(p)]
    whether all elements do, each element being tested with its
    position; on an empty sequence [some] is false and [every] true. *)
Theorem some_and_every_on_finite_sequence (p : SeqCallback bool) (this : Seq)
    (xs : list value) :
  Drains this xs -> Forall defined xs ->
  (exists fuel,
      outcome (Seq_some fuel p this)
      = Some (Normal (existsb (at_position p) (indexed 0 xs))))
  /\ (exists fuel,
         outcome (Seq_every fuel p this)
         = Some (Normal (forallb (at_position p) (indexed 0 xs)))).
Proof.
  intros H Hdef. split; [now apply some_on_finite|].
  destruct (some_on_finite (inverse p) this xs H Hdef) as (fuel & Hsome).
  exists fuel. rewrite existsb_inverse in Hsome.
  unfold Seq_some, Seq_every in *.
  destruct (Seq_find fuel (inverse p) this) as [[[found|e] s]|];
    try discriminate.
  simpl in Hsome |- *. injection Hsome as Hsome.
  destruct (strict_eq found VUndefined);
    destruct (forallb (at_position p) (indexed 0 xs)); simpl in *; congruence.
Qed.

Lemma some_and_every_on_finite_sequence_witness :
  (exists fuel,
      outcome (Seq_some fuel (fun item _ => strict_eq item (VStr "b"))
                 (Seq_of [VStr "a"; VStr "b"]))
      = Some (Normal true))
  /\ (exists fuel,
         outcome (Seq_every fuel (fun item _ => strict_eq item (VStr "b"))
                    (Seq_of [VStr "a"; VStr "b"]))
         = Some (Normal false)).
Proof.
  apply (some_and_every_on_finite_sequence
           (fun item _ => strict_eq item (VStr "b"))
           (Seq_of [VStr "a"; VStr "b"]) [VStr "a"; VStr "b"]).
  - exists 4, (new_Seq (ArrayIterator [])). reflexivity.
  - repeat constructor.
Defined.

(** X9. When the cursor of a sequence produces the elements [pre] and
    then [x], none of them [undefined], with the predicate true on [pre]
    and false on [x], [every] returns false and leaves the cursor of the
    sequence after the pull that produced [x]: it stops at the first
    element that fails, on an unending sequence too. *)
Theorem every_stops_at_first_failure (p : SeqCallback bool) (this : Seq)
    (pre : list value) (x : value) (source' : Iterator) :
  yields (iterator this) (pre ++ [x]) source' ->
  Forall defined (pre ++ [x]) ->
  forallb (at_position p) (indexed 0 pre) = true ->
  p x (index_value (List.length pre)) = false ->
  exists fuel,
    Seq_every fuel p this
    = Some (Normal false,
            new_Seq (MapIterator source' entry (S (List.length pre)))).
Proof.
  intros Hy Hdef Hpre Hx. destruct this as [source].
  assert (Hpre' : existsb (at_position (inverse p)) (indexed 0 pre) = false)
    by now rewrite existsb_inverse, Hpre.
  assert (Hx' : inverse p x (index_value (0 + List.length pre)) = true)
    by (unfold inverse; simpl; now rewrite Hx).
  destruct (find_loops_hit (inverse p) pre source 0 x source' Hy Hdef Hpre' Hx')
    as (fuel & Hfind & _).
  exists fuel. unfold Seq_every, Seq_find.
  rewrite Seq_entries_new, Hfind. simpl.
  assert (Hd : defined x).
  { apply Forall_app in Hdef. destruct Hdef as [_ Hd]. now inversion Hd. }
  now rewrite Hd.
Qed.

Lemma every_stops_at_first_failure_witness :
  exists fuel,
    Seq_every fuel below_two (Seq_initInfinite None)
    = Some (Normal false, new_Seq (MapIterator (InfiniteIterator 3) entry 3)).
Proof.
  apply (every_stops_at_first_failure below_two (Seq_initInfinite None)
           [VNum (Num 0); VNum (Num 1)] (VNum (Num 2)) (InfiniteIterator 3)).
  - simpl.
    apply (yields_cons _ 1 (mkResult false (index_value 0)) (InfiniteIterator 1));
      try reflexivity.
    apply (yields_cons _ 1 (mkResult false (index_value 1)) (InfiniteIterator 2));
      try reflexivity.
    apply (yields_cons _ 1 (mkResult false (index_value 2)) (InfiniteIterator 3));
      try reflexivity.
    constructor.
  - repeat constructor.
  - reflexivity.
  - reflexivity.
Defined.

(** ** reduce and includes on a finite sequence *)

(** X10. On a finite sequence with elements [xs], none of them
    [undefined]: with an initial value that is not [undefined], [reduce]
    folds every element from position 0, left to right; with no initial
    value and [xs = x :: rest], it starts from [x] and folds [rest] from
    position 1.  The fold stops at the first call of the callback that
    throws, and [reduce] throws what the callback threw. *)
Theorem reduce_folds_in_order (callbackfn : ReduceCallback) (this : Seq)
    (xs : list value) :
  Drains this xs -> Forall defined xs ->
  (forall initialValue,
      defined initialValue ->
      exists fuel,
        outcome (Seq_reduce fuel callbackfn (Some initialValue) this)
        = Some (fold_from callbackfn 0 initialValue xs))
  /\ (forall x rest,
         xs = x :: rest ->
         exists fuel,
           outcome (Seq_reduce fuel callbackfn None this)
           = Some (fold_from callbackfn 1 x rest)).
Proof.
  intros H Hdef. split.
  - intros initialValue Hinit. now apply reduce_with_initial_value.
  - intros x rest ->. now apply reduce_seeds_with_first_element.
Qed.

Lemma reduce_folds_in_order_witness :
  (exists fuel,
      outcome (Seq_reduce fuel (fun acc x index => Normal (VArr [acc; x; index]))
                 (Some VNull) (Seq_of [VStr "a"; VStr "b"]))
      = Some (Normal (VArr [VArr [VNull; VStr "a"; index_value 0];
                            VStr "b"; index_value 1])))
  /\ (exists fuel,
         outcome (Seq_reduce fuel
                    (fun acc x index => Normal (VArr [acc; x; index]))
                    None (Seq_of [VStr "a"; VStr "b"]))
         = Some (Normal (VArr [VStr "a"; VStr "b"; index_value 1]))).
Proof.
  destruct (reduce_folds_in_order
              (fun acc x index => Normal (VArr [acc; x; index]))
              (Seq_of [VStr "a"; VStr "b"]) [VStr "a"; VStr "b"])
    as [Hseeded Hunseeded].
  - exists 4, (new_Seq (ArrayIterator [])). reflexivity.
  - repeat constructor.
  - split.
    + apply (Hseeded VNull). reflexivity.
    + apply (Hunseeded (VStr "a") [VStr "b"]). reflexivity.
Defined.

(** X11. When the first pull on a sequence reports exhaustion, [reduce]
    with no initial value throws: the TypeError raised by destructuring
    [false] when the exhausted result carries no value, as with an array,
    and the TypeError 'Reduce of empty Seq with no initial value' only
    when it carries one, as the result that ends a generator with a
    return value does. *)
Theorem reduce_without_initial_value_on_exhausted
    (callbackfn : ReduceCallback) (this this' : Seq) (fuel : nat)
    (r : IteratorResult) :
  Seq_next fuel this = Some (r, this') -> done r = true ->
  (value_of r = VUndefined ->
   outcome (Seq_reduce (S fuel) callbackfn None this)
   = Some (Throw (NotIterable (VBool false))))
  /\ (defined (value_of r) ->
      outcome (Seq_reduce (S fuel) callbackfn None this)
      = Some (Throw EmptyReduction)).
Proof.
  intros Hn Hd.
  rewrite (reduce_of_exhausted_throws callbackfn this this' fuel r Hn Hd).
  split; intros Hv.
  - now rewrite Hv.
  - now rewrite Hv.
Qed.

Lemma reduce_without_initial_value_on_exhausted_witness :
  outcome (Seq_reduce 2 (fun acc _ _ => Normal acc) None
             (Seq_from (ObjectIterable
                          (ExternalIterator (fun _ => mkResult true (VStr "end")) 0))))
  = Some (Throw EmptyReduction).
Proof.
  apply (proj2 (reduce_without_initial_value_on_exhausted
                  (fun acc _ _ => Normal acc)
                  (Seq_from (ObjectIterable
                               (ExternalIterator
                                  (fun _ => mkResult true (VStr "end")) 0)))
                  (new_Seq (ExternalIterator
                              (fun _ => mkResult true (VStr "end")) 1))
                  1 (mkResult true (VStr "end"))
                  eq_refl eq_refl)).
  reflexivity.
Defined.

Lemma includes_test_NaN (xs : list value) :
  forall start,
    In (VNum NaN) xs ->
    existsb (includes_test (VNum NaN) None) (indexed start xs) = true.
Proof.
  unfold indexed. induction xs as [|x xs IH]; intros start Hin; [contradiction|].
  simpl. destruct Hin as [->|Hin].
  - reflexivity.
  - rewrite (IH (S start) Hin). apply orb_true_r.
Qed.

(** X12. On a finite sequence with elements [xs], none of them
    [undefined], [includes] returns whether some element at a position
    at or above [fromIndex] (any position when [fromIndex] is left out)
    is identical to the search element or is NaN as the search element
    is; so a sequence that contains NaN includes NaN. *)
Theorem includes_on_finite_sequence (searchElement : value)
    (fromIndex : option number) (this : Seq) (xs : list value) :
  Drains this xs -> Forall defined xs ->
  (exists fuel,
      outcome (Seq_includes fuel searchElement fromIndex this)
      = Some (Normal (existsb (includes_test searchElement fromIndex)
                        (indexed 0 xs))))
  /\ (In (VNum NaN) xs ->
      exists fuel,
        outcome (Seq_includes fuel (VNum NaN) None this) = Some (Normal true)).
Proof.
  intros H Hdef. split.
  - now apply includes_of_defined_elements.
  - intros Hin.
    destruct (includes_of_defined_elements (VNum NaN) None this xs H Hdef)
      as (fuel & Hres).
    exists fuel. now rewrite Hres, includes_test_NaN.
Qed.

Lemma includes_on_finite_sequence_witness :
  (exists fuel,
      outcome (Seq_includes fuel (VStr "a") (Some (Num 1))
                 (Seq_of [VStr "a"; VNum NaN]))
      = Some (Normal false))
  /\ (exists fuel,
         outcome (Seq_includes fuel (VNum NaN) None (Seq_of [VStr "a"; VNum NaN]))
         = Some (Normal true)).
Proof.
  destruct (includes_on_finite_sequence (VStr "a") (Some (Num 1))
              (Seq_of [VStr "a"; VNum NaN]) [VStr "a"; VNum NaN])
    as [Hfrom Hnan].
  - exists 4, (new_Seq (ArrayIterator [])). reflexivity.
  - repeat constructor.
  - split; [exact Hfrom|]. apply Hnan. right. left. reflexivity.
Defined.

(** ** init and initInfinite *)

Lemma numbers_defined (count : nat) :
  forall start, Forall defined (numbers start count).
Proof.
  unfold numbers. induction count as [|count IH]; intros start; simpl.
  - constructor.
  - constructor; [reflexivity|apply IH].
Qed.

Lemma numbers_length (start count : nat) :
  List.length (numbers start count) = count.
Proof. unfold numbers. now rewrite length_map, length_seq. Qed.

Lemma indexed_numbers (f : SeqCallback value) (count : nat) :
  forall start,
    List.map (at_position f) (indexed start (numbers start count))
    = List.map (fun i => f (index_value i) (index_value i)) (seq start count).
Proof.
  unfold indexed, numbers.
  induction count as [|count IH]; intros start; [reflexivity|].
  simpl. unfold at_position at 1. simpl. f_equal. apply IH.
Qed.



Lemma yields_infinite (count : nat) :
  forall start,
    yields (InfiniteIterator start) (numbers start count)
      (InfiniteIterator (start + count)).
Proof.
  unfold numbers. induction count as [|count IH]; intros start; simpl.
  - rewrite Nat.add_0_r. constructor.
  - apply (yields_cons _ 1 (mkResult false (index_value start))
             (InfiniteIterator (S start))); try reflexivity.
    replace (start + S count) with (S start + count) by lia. apply IH.
Qed.

Lemma yields_map_defined (f : SeqCallback value) (xs : list value) :
  forall source source' index,
    yields source xs source' -> Forall defined xs ->
    yields (MapIterator source f index)
      (List.map (at_position f) (indexed index xs))
      (MapIterator source' f (index + List.length xs)).
Proof.
  induction xs as [|x xs IH]; intros source source' index Hy Hdef.
  - inversion Hy; subst. simpl. rewrite Nat.add_0_r. constructor.
  - destruct (yields_cons_inv _ _ _ _ Hy) as (fuel & r & it' & Hn & Hd & Hv & Hrest).
    inversion Hdef as [|? ? Hx Hxs]; subst.
    unfold indexed. cbn [List.length seq combine List.map].
    fold (indexed (S index) xs). unfold at_position at 1. cbn [fst snd].
    apply (yields_cons _ (S fuel)
             (mkResult false (f (value_of r) (index_value index)))
             (MapIterator it' f (S index))).
    + simpl. now rewrite Hn, Hx, Hd.
    + reflexivity.
    + replace (index + S (List.length xs)) with (S index + List.length xs) by lia.
      now apply IH.
Qed.

Lemma pulled_map_infinite (f : SeqCallback value) (n : nat) :
  forall start index it,
    pulled n (MapIterator (InfiniteIterator start) f index) it ->
    exists start' index', it = MapIterator (InfiniteIterator start') f index'.
Proof.
  induction n as [|n IH]; intros start index it H.
  - inversion H; subst. eauto.
  - inversion H as [|? ? fuel r it' ? Hn Hp]; subst.
    destruct fuel as [|[|fuel]]; try discriminate.
    cbn [next] in Hn. cbn [value_of index_value strict_eq negb done] in Hn.
    injection Hn as _ <-. now apply IH in Hp.
Qed.

(** X14. [initInfinite()] never reports exhaustion: for every [n] its
    cursor produces the [n] numbers [0, ..., n - 1], and a pull made
    after any number of pulls returns a result that is not done.  With
    an initializer [f] it produces [f(i, i)] in place of [i], never
    reporting exhaustion either. *)
Theorem initInfinite_never_exhausts (n : nat) :
  yields (iterator (Seq_initInfinite None)) (numbers 0 n) (InfiniteIterator n)
  /\ (forall initializer,
         yields (iterator (Seq_initInfinite (Some initializer)))
           (List.map (fun i => initializer (index_value i) (index_value i))
              (seq 0 n))
           (MapIterator (InfiniteIterator n) initializer n))
  /\ (forall initializer it fuel r it',
         after (iterator (Seq_initInfinite initializer)) it ->
         next fuel it = Some (r, it') -> done r = false).
Proof.
  split; [|split].
  - apply (yields_infinite n 0).
  - intros initializer. rewrite <- indexed_numbers.
    assert (H := yields_map_defined initializer (numbers 0 n)
                   (InfiniteIterator 0) (InfiniteIterator n) 0
                   (yields_infinite n 0) (numbers_defined n 0)).
    now rewrite numbers_length in H.
  - intros [initializer|] it fuel r it' (m & Hp) Hn; simpl in Hp.
    + destruct (pulled_map_infinite _ _ _ _ _ Hp) as (start' & index' & ->).
      destruct fuel as [|[|fuel]]; try discriminate.
      cbn [next] in Hn. cbn [value_of index_value strict_eq negb done] in Hn.
      now injection Hn as <- _.
    + apply pulled_infinite in Hp. subst it.
      destruct fuel as [|fuel]; [discriminate|]. simpl in Hn.
      now injection Hn as <- _.
Qed.

(** X15. A pull on [initInfinite().filter(p)] never returns when no
    number satisfies [p]: the loop of [filter] goes through the numbers
    without end. *)
Theorem filter_without_match_on_infinite_never_returns
    (p : SeqCallback bool) (fuel : nat) :
  (forall i, p (index_value i) (index_value i) = false) ->
  Seq_next fuel (Seq_filter p (Seq_initInfinite None)) = None.
Proof.
  intros Hp. unfold Seq_filter, Seq_initInfinite, Seq_new. simpl.
  rewrite Seq_next_new.
  assert (H : forall fuel start,
             next fuel (FilterIterator (InfiniteIterator start) p start) = None).
  { clear fuel. induction fuel as [|fuel IH]; intros start; [reflexivity|].
    simpl. destruct fuel as [|fuel]; [reflexivity|].
    cbn [next done value_of]. rewrite Hp. apply IH. }
  now rewrite H.
Qed.

Lemma filter_without_match_on_infinite_never_returns_witness :
  Seq_next 100 (Seq_filter (fun _ _ => false) (Seq_initInfinite None)) = None.
Proof.
  apply (filter_without_match_on_infinite_never_returns (fun _ _ => false) 100).
  intros i. reflexivity.
Defined.

(** ** concat as a method *)

(** X16. [this.concat(...items)] is the finite sequence of the elements
    of [this] followed by what each of [items] contributes, from left to
    right; with no item it is the elements of [this]. *)
Theorem concat_method_appends_items (this : Seq) (xs : list value)
    (items : list item) (runs : list (list value)) :
  Drains this xs ->
  Forall2 contributes items runs ->
  Drains (Seq_concat_method this items) (xs ++ List.concat runs).
Proof.
  intros H Hruns. unfold Seq_concat_method, Seq_concat, Seq_new. simpl.
  apply concat_drains_from.
  - now rewrite new_Seq_iterator.
  - exact Hruns.
Qed.

Lemma concat_method_appends_items_witness :
  Drains (Seq_concat_method (Seq_of [VStr "a"])
            [ItemValue (VStr "b"); ItemSeq (Seq_of [VStr "c"; VStr "d"])])
         [VStr "a"; VStr "b"; VStr "c"; VStr "d"].
Proof.
  apply (concat_method_appends_items (Seq_of [VStr "a"]) [VStr "a"]
           [ItemValue (VStr "b"); ItemSeq (Seq_of [VStr "c"; VStr "d"])]
           [[VStr "b"]; [VStr "c"; VStr "d"]]).
  - exists 3, (new_Seq (ArrayIterator [])). reflexivity.
  - repeat constructor.
    exists 4, (new_Seq (ArrayIterator [])). reflexivity.
Defined.

(** ** Spreading, and reverse *)

Lemma engine_built_yields (zip_source : Iterator -> Prop)
    (zip_source_next : forall it fuel r it',
        zip_source it -> next fuel it = Some (r, it') -> zip_source it')
    (it it' : Iterator) (xs : list value) :
  engine_built zip_source it -> yields it xs it' ->
  engine_built zip_source it'.
Proof.
  intros Hb Hy. apply (engine_built_after zip_source zip_source_next it it' Hb).
  exists (List.length xs). now apply yields_length_pulled.
Qed.

(** X17. Spreading a sequence built by the engine leaves its cursor
    exhausted; when the two sources of each [zip] in it return from
    every pull, spreading it a second time returns, and gives no
    element. *)
Theorem spread_twice_gives_nothing (this this' : Seq) (fuel : nat)
    (xs : list value) :
  engine_built always_returns (iterator this) ->
  spread fuel this = Some (xs, this') ->
  exhausted (iterator this')
  /\ exists fuel' this'', spread fuel' this' = Some ([], this'').
Proof.
  intros Hb Hs. destruct this as [it].
  destruct (spread_inv _ _ _ _ Hs) as (it1 & it2 & Hy & (f & r & Hn & Hd) & ->).
  assert (Hb1 := engine_built_yields always_returns always_returns_next
                   _ _ _ Hb Hy).
  assert (He := exhaustion_report always_returns always_returns_next
                  _ _ _ _ Hb1 Hn Hd).
  assert (Hb2 := engine_built_next always_returns always_returns_next
                   _ _ _ _ Hb1 Hn).
  split; [exact He|].
  destruct (exhausted_returns _ He Hb2) as (fuel' & r' & it3 & Hn').
  destruct (exhausted_next _ _ _ _ He Hn') as [Hd' _].
  exists (S fuel'), (new_Seq it3). simpl.
  rewrite Seq_next_new. simpl. now rewrite Hn', Hd'.
Qed.

Lemma spread_twice_gives_nothing_witness :
  exhausted (ArrayIterator [])
  /\ exists fuel' this'', spread fuel' (new_Seq (ArrayIterator [])) = Some ([], this'').
Proof.
  apply (spread_twice_gives_nothing (Seq_of [VStr "a"; VStr "b"])
           (new_Seq (ArrayIterator [])) 4 [VStr "a"; VStr "b"]).
  - constructor.
  - reflexivity.
Defined.

(** X18. [reverse()] of a finite sequence with elements [xs] is a new
    finite sequence with the elements of [xs] in the opposite order, and
    it leaves the cursor of the original right after the pull that
    reported exhaustion: the original is consumed.  Reversing the result
    gives the elements in the order of [xs] again. *)
Theorem reverse_of_finite_sequence (this : Seq) (xs : list value) :
  Drains this xs ->
  exists fuel reversed this' it1,
    Seq_reverse fuel this = Some (reversed, this')
    /\ Drains reversed (rev xs)
    /\ yields (iterator this) xs it1 /\ ends it1 (iterator this')
    /\ exists fuel' again reversed',
         Seq_reverse fuel' reversed = Some (again, reversed')
         /\ Drains again xs.
Proof.
  intros (fuel & this' & Hs). destruct this as [it].
  destruct (spread_inv _ _ _ _ Hs) as (it1 & it2 & Hy & He & ->).
  exists fuel, (Seq_of (rev xs)), (new_Seq it2), it1.
  split; [unfold Seq_reverse; now rewrite Hs|].
  split; [apply Drains_of|].
  split; [exact Hy|]. split; [exact He|].
  destruct (Drains_of (rev xs)) as (fuel' & reversed' & Hs').
  exists fuel', (Seq_of xs), reversed'. split.
  - unfold Seq_reverse. now rewrite Hs', rev_involutive.
  - apply Drains_of.
Qed.

Lemma reverse_of_finite_sequence_witness :
  exists fuel reversed this' it1,
    Seq_reverse fuel (Seq_of [VStr "a"; VStr "b"; VStr "c"])
    = Some (reversed, this')
    /\ Drains reversed [VStr "c"; VStr "b"; VStr "a"]
    /\ yields (ArrayIterator [VStr "a"; VStr "b"; VStr "c"])
         [VStr "a"; VStr "b"; VStr "c"] it1
    /\ ends it1 (iterator this')
    /\ exists fuel' again reversed',
         Seq_reverse fuel' reversed = Some (again, reversed')
         /\ Drains again [VStr "a"; VStr "b"; VStr "c"].
Proof.
  apply (reverse_of_finite_sequence (Seq_of [VStr "a"; VStr "b"; VStr "c"])
           [VStr "a"; VStr "b"; VStr "c"]).
  exists 5, (new_Seq (ArrayIterator [])). reflexivity.
Defined.

(** ** The last step of zip *)

Lemma zip_yields (xs : list value) :
  forall ys it1 it1' it2 it2',
    yields it1 xs it1' -> yields it2 ys it2' ->
    List.length xs = List.length ys ->
    yields (ZipIterator it1 it2) (List.map pair_value (combine xs ys))
      (ZipIterator it1' it2').
Proof.
  induction xs as [|x xs IH]; intros ys it1 it1' it2 it2' H1 H2 Hlen.
  - destruct ys; [|discriminate]. inversion H1; subst. inversion H2; subst.
    constructor.
  - destruct ys as [|y ys]; [discriminate|].
    destruct (yields_cons_inv _ _ _ _ H1) as (f1 & r1 & i1 & Hn1 & Hd1 & Hv1 & Hr1).
    destruct (yields_cons_inv _ _ _ _ H2) as (f2 & r2 & i2 & Hn2 & Hd2 & Hv2 & Hr2).
    simpl. unfold pair_value at 1. cbn [fst snd]. subst x y.
    apply (yields_cons _ (S (Nat.max f1 f2))
             (mkResult false (VArr [value_of r1; value_of r2]))
             (ZipIterator i1 i2)).
    + rewrite (zip_step _ _ _ i1 i2 r1 r2);
        [|apply (next_mono _ _ _ _ Hn1); lia|apply (next_mono _ _ _ _ Hn2); lia].
      now rewrite Hd1, Hd2.
    + reflexivity.
    + apply IH; trivial. simpl in Hlen. lia.
Qed.

(** C6. For any two sources, finite or not: one step of [zip] pulls
    each of its two cursors once and reports exhaustion as soon as one of
    the two pulls does, giving the pair of the two values otherwise; as
    long as both sources produce elements the [zip] produces their pairs;
    and once one of the sources reports exhaustion, after [xs] and [ys]
    of the same length, spreading the [zip] returns the pairs of [xs] and
    [ys].  Over two finite sources with elements [xs] and [ys] these are
    as many pairs as the shorter source has elements, and
    [zip([1,2,3], ['a','b'])] spreads to [[1,'a'], [2,'b']]. *)
Theorem zip_truncates_to_shorter_source (source1 source2 : Iterable) :
  iterator (Seq_zip source1 source2)
  = ZipIterator (symbol_iterator source1) (symbol_iterator source2)
  /\ (forall fuel iterator1 iterator2 item1 item2 iterator1' iterator2',
         next fuel iterator1 = Some (item1, iterator1') ->
         next fuel iterator2 = Some (item2, iterator2') ->
         next (S fuel) (ZipIterator iterator1 iterator2)
         = Some (if done item1 || done item2
                 then result_done
                 else mkResult false (VArr [value_of item1; value_of item2]),
                 ZipIterator iterator1' iterator2'))
  /\ (forall xs ys iterator1 iterator2,
         yields (symbol_iterator source1) xs iterator1 ->
         yields (symbol_iterator source2) ys iterator2 ->
         List.length xs = List.length ys ->
         yields (iterator (Seq_zip source1 source2))
           (List.map pair_value (combine xs ys))
           (ZipIterator iterator1 iterator2)
         /\ (forall fuel item1 item2 iterator1' iterator2',
                next fuel iterator1 = Some (item1, iterator1') ->
                next fuel iterator2 = Some (item2, iterator2') ->
                done item1 || done item2 = true ->
                exists fuel',
                  spread fuel' (Seq_zip source1 source2)
                  = Some (List.map pair_value (combine xs ys),
                          new_Seq (ZipIterator iterator1' iterator2'))))
  /\ (forall xs ys,
         Drains (Seq_from source1) xs ->
         Drains (Seq_from source2) ys ->
         Drains (Seq_zip source1 source2) (List.map pair_value (combine xs ys))
         /\ List.length (List.map pair_value (combine xs ys))
            = Nat.min (List.length xs) (List.length ys))
  /\ outcome (spread 5 (Seq_zip
                          (ArrayIterable [VNum (Num 1); VNum (Num 2); VNum (Num 3)])
                          (ArrayIterable [VStr "a"; VStr "b"])))
     = Some [VArr [VNum (Num 1); VStr "a"]; VArr [VNum (Num 2); VStr "b"]].
Proof.
  split; [reflexivity|]. split; [|split; [|split; [|reflexivity]]].
  - intros fuel it1 it2 item1 item2 it1' it2' Hn1 Hn2.
    apply (zip_step _ _ _ _ _ _ _ Hn1 Hn2).
  - intros xs ys it1 it2 H1 H2 Hlen.
    assert (Hy : yields (iterator (Seq_zip source1 source2))
                   (List.map pair_value (combine xs ys)) (ZipIterator it1 it2))
      by now apply zip_yields.
    split; [exact Hy|].
    intros fuel item1 item2 it1' it2' Hn1 Hn2 Hd.
    apply (yields_spread _ (ZipIterator it1 it2)); [exact Hy|].
    exists (S fuel), result_done. split; [|reflexivity].
    rewrite (zip_step _ _ _ _ _ _ _ Hn1 Hn2). now rewrite Hd.
  - intros xs ys H1 H2. split.
    + now apply zip_drains.
    + now rewrite length_map, length_combine.
Qed.

Lemma zip_truncates_to_shorter_source_witness :
  (exists fuel',
      spread fuel' (Seq_zip (SeqIterable (Seq_initInfinite None))
                            (ArrayIterable [VStr "a"; VStr "b"]))
      = Some ([VArr [index_value 0; VStr "a"]; VArr [index_value 1; VStr "b"]],
              new_Seq (ZipIterator (InfiniteIterator 3) (ArrayIterator []))))
  /\ Drains (Seq_zip (ArrayIterable [VNum (Num 1); VNum (Num 2); VNum (Num 3)])
                     (ArrayIterable [VStr "a"; VStr "b"]))
            [VArr [VNum (Num 1); VStr "a"]; VArr [VNum (Num 2); VStr "b"]].
Proof.
  split.
  - destruct (zip_truncates_to_shorter_source
                (SeqIterable (Seq_initInfinite None))
                (ArrayIterable [VStr "a"; VStr "b"]))
      as (_ & _ & Hunending & _).
    destruct (Hunending (numbers 0 2) [VStr "a"; VStr "b"]
                (InfiniteIterator 2) (ArrayIterator []))
      as [_ Hends].
    + apply (yields_infinite 2 0).
    + simpl.
      apply (yields_cons _ 1 (mkResult false (VStr "a"))
               (ArrayIterator [VStr "b"])); try reflexivity.
      apply (yields_cons _ 1 (mkResult false (VStr "b")) (ArrayIterator []));
        try reflexivity.
      constructor.
    + reflexivity.
    + apply (Hends 1 (mkResult false (index_value 2)) result_done
               (InfiniteIterator 3) (ArrayIterator [])); reflexivity.
  - destruct (zip_truncates_to_shorter_source
                (ArrayIterable [VNum (Num 1); VNum (Num 2); VNum (Num 3)])
                (ArrayIterable [VStr "a"; VStr "b"]))
      as (_ & _ & _ & Hfinite & _).
    apply (Hfinite [VNum (Num 1); VNum (Num 2); VNum (Num 3)]
             [VStr "a"; VStr "b"]).
    + exists 5, (new_Seq (ArrayIterator [])). reflexivity.
    + exists 5, (new_Seq (ArrayIterator [])). reflexivity.
Defined.

(** X19. [zip] pulls both sources at every step, the step that reports
    exhaustion included.  When the sources produce [xs] and [ys], of the
    same length, and one of the two next pulls reports exhaustion,
    spreading the [zip] gives the pairs of [xs] and [ys] and leaves both
    sources after that next pull: an element that the other source
    produced in the last step is consumed and appears in no pair. *)
Theorem zip_last_step_pulls_both_sources (source1 source2 : Iterable)
    (xs ys : list value) (it1 it2 it1' it2' : Iterator) (fuel : nat)
    (item1 item2 : IteratorResult) :
  yields (symbol_iterator source1) xs it1 ->
  yields (symbol_iterator source2) ys it2 ->
  List.length xs = List.length ys ->
  next fuel it1 = Some (item1, it1') ->
  next fuel it2 = Some (item2, it2') ->
  done item1 || done item2 = true ->
  exists fuel',
    spread fuel' (Seq_zip source1 source2)
    = Some (List.map pair_value (combine xs ys),
            new_Seq (ZipIterator it1' it2')).
Proof.
  intros H1 H2 Hlen Hn1 Hn2 Hd.
  unfold Seq_zip, Seq_new. simpl symbol_iterator at 1.
  apply (yields_spread _ (ZipIterator it1 it2)).
  - now apply zip_yields.
  - exists (S fuel), result_done. split; [|reflexivity].
    rewrite (zip_step _ _ _ _ _ _ _ Hn1 Hn2). now rewrite Hd.
Qed.

Lemma zip_last_step_pulls_both_sources_witness :
  exists fuel',
    spread fuel' (Seq_zip (ArrayIterable [VStr "a"; VStr "b"; VStr "c"])
                          (ArrayIterable [VNum (Num 1)]))
    = Some ([VArr [VStr "a"; VNum (Num 1)]],
            new_Seq (ZipIterator (ArrayIterator [VStr "c"]) (ArrayIterator []))).
Proof.
  apply (zip_last_step_pulls_both_sources
           (ArrayIterable [VStr "a"; VStr "b"; VStr "c"])
           (ArrayIterable [VNum (Num 1)])
           [VStr "a"] [VNum (Num 1)]
           (ArrayIterator [VStr "b"; VStr "c"]) (ArrayIterator [])
           (ArrayIterator [VStr "c"]) (ArrayIterator [])
           1 (mkResult false (VStr "b")) result_done).
  - simpl.
    apply (yields_cons _ 1 (mkResult false (VStr "a"))
             (ArrayIterator [VStr "b"; VStr "c"])); try reflexivity.
    constructor.
  - simpl.
    apply (yields_cons _ 1 (mkResult false (VNum (Num 1))) (ArrayIterator []));
      try reflexivity.
    constructor.
  - reflexivity.
  - reflexivity.
  - reflexivity.
  - reflexivity.
Defined.

(** ** One pull on filter *)

Lemma filter_pull (p : SeqCallback bool) (pre : list value) :
  forall source index x source',
    yields source (pre ++ [x]) source' ->
    existsb (at_position p) (indexed index pre) = false ->
    p x (index_value (index + List.length pre)) = true ->
    exists fuel,
      next fuel (FilterIterator source p index)
      = Some (mkResult false x,
              FilterIterator source' p (S (index + List.length pre))).
Proof.
  induction pre as [|y pre IH]; intros source index x source' Hy Hpre Hx.
  - simpl in Hy.
    destruct (yields_cons_inv _ _ _ _ Hy) as (fuel & r & it' & Hn & Hd & Hv & Hrest).
    inversion Hrest; subst. simpl in Hx. rewrite Nat.add_0_r in *.
    exists (S fuel). simpl. rewrite Hn, Hd, Hx.
    destruct r as [d v]. simpl in Hd. now subst d.
  - simpl in Hy.
    destruct (yields_cons_inv _ _ _ _ Hy) as (fuel & r & it' & Hn & Hd & Hv & Hrest).
    subst y.
    unfold indexed in Hpre. cbn [List.length seq combine existsb] in Hpre.
    fold (indexed (S index) pre) in Hpre.
    apply orb_false_iff in Hpre. destruct Hpre as [Hp Hpre].
    unfold at_position in Hp. cbn [fst snd] in Hp.
    cbn [List.length] in Hx |- *.
    replace (index + S (List.length pre)) with (S index + List.length pre)
      in * by lia.
    destruct (IH it' (S index) x source' Hrest Hpre Hx) as (fuel' & Hnext).
    exists (S (Nat.max fuel fuel')). simpl.
    rewrite (next_mono _ (Nat.max fuel fuel') _ _ Hn) by lia.
    rewrite Hd, Hp. apply (next_mono _ _ _ _ Hnext). lia.
Qed.

(** X20. One pull on [filter(p)]: when the source produces the elements
    [pre], which [p] rejects, and then [x], which [p] accepts, the pull
    returns [x] and leaves the source after the pull that produced [x];
    the source may go on without end.  The index given to [p] with [x]
    is the number of elements the source has produced before it. *)
Theorem filter_pull_returns_next_match (p : SeqCallback bool) (this : Seq)
    (pre : list value) (x : value) (source' : Iterator) :
  yields (iterator this) (pre ++ [x]) source' ->
  existsb (at_position p) (indexed 0 pre) = false ->
  p x (index_value (List.length pre)) = true ->
  exists fuel,
    Seq_next fuel (Seq_filter p this)
    = Some (mkResult false x,
            new_Seq (FilterIterator source' p (S (List.length pre)))).
Proof.
  intros Hy Hpre Hx. destruct this as [source].
  destruct (filter_pull p pre source 0 x source' Hy Hpre Hx) as (fuel & Hn).
  exists fuel. unfold Seq_filter, Seq_new. simpl symbol_iterator.
  rewrite Seq_next_new. simpl iterator. now rewrite Hn.
Qed.

Lemma filter_pull_returns_next_match_witness :
  exists fuel,
    Seq_next fuel
      (Seq_filter (fun item _ => negb (below_two item (index_value 0)))
         (Seq_initInfinite None))
    = Some (mkResult false (VNum (Num 2)),
            new_Seq (FilterIterator (InfiniteIterator 3)
                       (fun item _ => negb (below_two item (index_value 0))) 3)).
Proof.
  apply (filter_pull_returns_next_match
           (fun item _ => negb (below_two item (index_value 0)))
           (Seq_initInfinite None)
           [VNum (Num 0); VNum (Num 1)] (VNum (Num 2)) (InfiniteIterator 3)).
  - apply (yields_infinite 3 0).
  - reflexivity.
  - reflexivity.
Defined.

Lemma initInfinite_never_exhausts_witness :
  done (mkResult false (index_value 2)) = false.
Proof.
  apply (proj2 (proj2 (initInfinite_never_exhausts 0)) None
           (InfiniteIterator 2) 1 (mkResult false (index_value 2))
           (InfiniteIterator 3)).
  - exists 2. apply pulled_infinite. reflexivity.
  - reflexivity.
Defined.
